(** * suite2p anatomical detection: a shallow embedding of
      [suite2p/detection/anatomical.py] and the properties of its
      mask bookkeeping.

    Conventions of the embedding.
    - numpy integer arrays are lists of [Z]; a 2-D array is the list of its
      rows.  Integer widths are not modelled except where the source casts
      explicitly ([astype(np.uint16)], [np.int32]).
    - floating point values (weights, IOUs, diameters) are rationals [Q]:
      the code under study only compares them, selects among them and takes
      medians of integers, all of which are exact on the values involved.
      NaN and infinities are not represented.
    - Python exceptions are values of [exn]; a computation that may raise
      returns [res A].
    - a Python [dict] with string keys is a [gmap string _].
    - functions of other modules ([utils.square_mask], [utils.mask_ious],
      [utils.mask_stats], the Cellpose model, OpenCV) are parameters. *)

From stdpp Require Import gmap strings list sorting.
From Stdlib Require Import ZArith QArith Lia.

Local Open Scope Z_scope.

(** ** Exceptions and fallible computations *)

(** The subclasses of Python's [Exception] that the module can meet.
    [ExternalError] stands for any [Exception] raised inside a collaborator. *)
Inductive exn : Type :=
  | TypeError
  | KeyError (key : string)
  | IndexError
  | ValueError
  | NameError (name : string)
  | ZeroDivisionError
  | AttributeError
  | ExternalError (what : string).

Inductive res (A : Type) : Type :=
  | Ok (a : A)
  | Err (e : exn).
Arguments Ok {A} a.
Arguments Err {A} e.

#[global] Instance res_ret : MRet res := fun A a => Ok a.
#[global] Instance res_bind : MBind res := fun A B f m =>
  match m with Ok a => f a | Err e => Err e end.

Definition is_ok {A} (r : res A) : bool :=
  match r with Ok _ => true | Err _ => false end.

(** ** numpy-style arrays *)

Abbreviation array2 A := (list (list A)).

(** [a.shape == (h, w)] for a rectangular 2-D array. *)
Definition has_shape {A} (a : array2 A) (h w : Z) : Prop :=
  Z.of_nat (length a) = h /\ Forall (fun row => Z.of_nat (length row) = w) a.

(** Python's normalisation of a slice bound against a length [n]. *)
Definition slice_bound (n i : Z) : Z :=
  if i <? 0 then Z.max 0 (i + n) else Z.min i n.

(** [l[a:b]] *)
Definition py_slice {A} (a b : Z) (l : list A) : list A :=
  let n := Z.of_nat (length l) in
  let a' := slice_bound n a in
  let b' := slice_bound n b in
  take (Z.to_nat (b' - a')) (drop (Z.to_nat a') l).

(** [m[r0:r1, c0:c1]] *)
Definition slice2 {A} (r0 r1 c0 c1 : Z) (m : array2 A) : array2 A :=
  fmap (py_slice c0 c1) (py_slice r0 r1 m).

(** [l[i]] with Python's negative indices and bounds check. *)
Definition py_index {A} (l : list A) (i : Z) : res A :=
  let n := Z.of_nat (length l) in
  let i' := if i <? 0 then i + n else i in
  if (0 <=? i') && (i' <? n)
  then match l !! Z.to_nat i' with Some x => Ok x | None => Err IndexError end
  else Err IndexError.

(** [m[y, x]] *)
Definition get2 {A} (m : array2 A) (y x : Z) : res A :=
  row ← py_index m y; py_index row x.

(** Broadcasting of two 1-D index arrays against each other. *)
Definition broadcast2 (ys xs : list Z) : res (list (Z * Z)) :=
  if decide (length ys = length xs) then Ok (zip ys xs)
  else match ys, xs with
       | [y], _ => Ok (fmap (pair y) xs)
       | _, [x] => Ok (fmap (fun y => (y, x)) ys)
       | _, _ => Err IndexError
       end.

(** [m[ys, xs]] with integer index arrays: a fresh 1-D array. *)
Definition fancy_get {A} (m : array2 A) (ys xs : list Z) : res (list A) :=
  idx ← broadcast2 ys xs;
  mapM (fun p => get2 m p.1 p.2) idx.

(** [m[y, x] = v] *)
Definition set2 {A} (m : array2 A) (y x : Z) (v : A) : res (array2 A) :=
  _ ← get2 m y x;
  let y' := if y <? 0 then y + Z.of_nat (length m) else y in
  Ok (alter (fun row =>
               let x' := if x <? 0 then x + Z.of_nat (length row) else x in
               <[Z.to_nat x' := v]> row) (Z.to_nat y') m).

(** Broadcasting of the assigned values to [n] index positions. *)
Definition broadcast_to {A} (n : nat) (vs : list A) : res (list A) :=
  if decide (length vs = n) then Ok vs
  else match vs with
       | [v] => Ok (replicate n v)
       | _ => Err ValueError
       end.

Fixpoint set_all {A} (m : array2 A) (idx : list (Z * Z)) (vs : list A)
  : res (array2 A) :=
  match idx, vs with
  | (y, x) :: idx', v :: vs' => m' ← set2 m y x v; set_all m' idx' vs'
  | _, _ => Ok m
  end.

(** [m[ys, xs] = vs]: assignments in order, the last write wins. *)
Definition fancy_set {A} (m : array2 A) (ys xs : list Z) (vs : list A)
  : res (array2 A) :=
  idx ← broadcast2 ys xs;
  vs' ← broadcast_to (length idx) vs;
  set_all m idx vs'.

(** [np.zeros((h, w))] *)
Definition np_zeros {A} (zero : A) (h w : Z) : res (array2 A) :=
  if (h <? 0) || (w <? 0) then Err ValueError
  else Ok (replicate (Z.to_nat h) (replicate (Z.to_nat w) zero)).

(** Column indices of the [true] entries of a row, starting the count at [j]. *)
Fixpoint true_indices (j : Z) (row : list bool) : list Z :=
  match row with
  | [] => []
  | b :: row' => (if b then [j] else []) ++ true_indices (j + 1) row'
  end.

Fixpoint nonzero_from (i : Z) (m : array2 bool) : list (Z * Z) :=
  match m with
  | [] => []
  | row :: m' => fmap (pair i) (true_indices 0 row) ++ nonzero_from (i + 1) m'
  end.

(** [np.nonzero(m)] of a boolean 2-D array: the (row, column) pairs of the
    [true] entries in row-major order.  numpy returns the two coordinate
    arrays separately; they are [fmap fst] and [fmap snd] of this list. *)
Definition nonzero (m : array2 bool) : list (Z * Z) := nonzero_from 0 m.

(** [m == k] *)
Definition eq_scalar (k : Z) (m : array2 Z) : array2 bool :=
  fmap (fun row : list Z => fmap (fun v => bool_decide (v = k)) row) m.

(** ** Order operations on float arrays *)

Definition qmin (a b : Q) : Q := if Qle_bool a b then a else b.
Definition qmax (a b : Q) : Q := if Qle_bool b a then a else b.

(** [a.min()] and [a.max()]: [ValueError] on a zero-size array. *)
Definition np_min (l : list Q) : res Q :=
  match l with
  | [] => Err ValueError
  | x :: l' => Ok (fold_left qmin l' x)
  end.

Definition np_max (l : list Q) : res Q :=
  match l with
  | [] => Err ValueError
  | x :: l' => Ok (fold_left qmax l' x)
  end.

(** [np.argmax]: index of the first occurrence of the maximum. *)
Fixpoint argmax_from (best : Q) (ibest i : Z) (l : list Q) : Z :=
  match l with
  | [] => ibest
  | x :: l' =>
      if Qle_bool x best then argmax_from best ibest (i + 1) l'
      else argmax_from x i (i + 1) l'
  end.

Definition np_argmax (l : list Q) : res Z :=
  match l with
  | [] => Err ValueError
  | x :: l' => Ok (argmax_from x 0 1 l')
  end.

(** ** Region records *)

(** The values stored in a region record ("stat" dict). *)
Inductive pyval : Type :=
  | PInts (l : list Z)        (* 1-D integer ndarray *)
  | PFloats (l : list Q)      (* 1-D float ndarray *)
  | PIntList (l : list Z)     (* Python list of integers *)
  | PInt (z : Z)
  | PBool (b : bool).

Abbreviation stat := (gmap string pyval).

(** [d[k]] *)
Definition dict_get {V} (d : gmap string V) (k : string) : res V :=
  match d !! k with Some v => Ok v | None => Err (KeyError k) end.

(** A record field used as an integer index array. *)
Definition as_index_array (v : pyval) : res (list Z) :=
  match v with
  | PInts l | PIntList l => Ok l
  | PInt z => Ok [z]
  | PBool _ | PFloats _ => Err IndexError
  end.

(** A record field used as the float values assigned into a float32 array. *)
Definition as_float_values (v : pyval) : res (list Q) :=
  match v with
  | PFloats l => Ok l
  | PInts l | PIntList l => Ok (fmap inject_Z l)
  | PInt z => Ok [inject_Z z]
  | PBool b => Ok [if b then 1%Q else 0%Q]
  end.

(** ** [refine_masks] *)

(** [a.astype(np.uint16)] on an integer array. *)
Definition astype_uint16 (m : array2 Z) : array2 Z :=
  fmap (fun row : list Z => fmap (fun v => v mod 65536) row) m.

(** [(func_mask > 0).astype(np.uint16)] *)
Definition positive_uint16 (m : array2 Q) : array2 Z :=
  fmap (fun row : list Q => fmap (fun w => if Qle_bool w 0 then 0 else 1) row) m.

(** The acceptance threshold of line 93. *)
Definition iou_threshold : Q := (45 # 100)%Q.

(** [len(ious) > 0 and ious.max() > 0.45]: [and] does not evaluate
    [ious.max()] on an empty array. *)
Definition accepts (ious : list Q) : res bool :=
  if 0 <? Z.of_nat (length ious)
  then m ← np_max ious; Ok (negb (Qle_bool m iou_threshold))
  else Ok false.

(** [lam0[lam0 <= 0] = lam0.min()]: the right-hand side is evaluated first. *)
Definition replace_nonpositive (lam0 : list Q) : res (list Q) :=
  m ← np_min lam0;
  Ok (fmap (fun w => if Qle_bool w 0 then m else w) lam0).

Section RefineMasks.
(** [utils.square_mask(mask, ly, yi, xi)] *)
Variable square_mask : array2 Q -> Z -> Z -> Z -> res (array2 Q).
(** [utils.mask_ious(masks_true, masks_pred)]: a pair whose first
    component is the array of IOUs. *)
Variable mask_ious : array2 Z -> array2 Z -> res (list Q * list Z).
(** [patch_detect(patches, diam)]: runs the Cellpose network; its result
    is one uint16 label mask per patch. *)
Variable patch_detect : list (array2 Q) -> Q -> res (list (array2 Z)).

(** Lines 87-92: the dense weight map of the region, its square window and
    the IOUs of the patch labels against it. *)
Definition region_ious (Lyc Lxc ly : Z) (patch_mask : array2 Z) (st : stat)
    (yi xi : Z) : res (array2 Q * list Q) :=
  mask ← np_zeros 0%Q Lyc Lxc;
  ypix0 ← dict_get st "ypix" ≫= as_index_array;
  xpix0 ← dict_get st "xpix" ≫= as_index_array;
  lam ← dict_get st "lam" ≫= as_float_values;
  mask ← fancy_set mask ypix0 xpix0 lam;
  func_mask ← square_mask mask ly yi xi;
  r ← mask_ious (astype_uint16 patch_mask) (positive_uint16 func_mask);
  Ok (func_mask, r.1).

(** Lines 94-108: the patch-decoded region becomes the footprint. *)
Definition adopt_footprint (Lyc Lxc ly : Z) (patch_mask : array2 Z)
    (func_mask : array2 Q) (ious : list Q) (st : stat) (yi xi : Z)
    : res stat :=
  imax ← np_argmax ious;
  let mask_id := imax + 1 in
  let r0 := Z.max 0 (ly - yi) in
  let r1 := Z.min (2 * ly) (Lyc + ly - yi) in
  let c0 := Z.max 0 (ly - xi) in
  let c1 := Z.min (2 * ly) (Lxc + ly - xi) in
  let patch_mask := slice2 r0 r1 c0 c1 patch_mask in
  let func_mask := slice2 r0 r1 c0 c1 func_mask in
  let pix := nonzero (eq_scalar mask_id patch_mask) in
  let ypix0 := pix.*1 in
  let xpix0 := pix.*2 in
  lam0 ← fancy_get func_mask ypix0 xpix0;
  lam0 ← replace_nonpositive lam0;
  let ypix0 := fmap (fun y => y + Z.max 0 (yi - ly)) ypix0 in
  let xpix0 := fmap (fun x => x + Z.max 0 (xi - ly)) xpix0 in
  Ok (<["anatomical" := PBool true]>
      (<["lam" := PFloats lam0]>
       (<["xpix" := PInts xpix0]>
        (<["ypix" := PInts ypix0]> st)))).

(** Lines 93-110. *)
Definition refine_decide (Lyc Lxc ly : Z) (patch_mask : array2 Z)
    (func_mask : array2 Q) (ious : list Q) (st : stat) (yi xi : Z)
    : res stat :=
  good ← accepts ious;
  if (good : bool)
  then adopt_footprint Lyc Lxc ly patch_mask func_mask ious st yi xi
  else Ok (<["anatomical" := PBool false]> st).

(** One iteration of the loop of [refine_masks] (lines 87-110).  The
    [igood] array of the source is written and never read; it is left
    out. *)
Definition refine_region (Lyc Lxc ly : Z) (patch_mask : array2 Z) (st : stat)
    (seed : Z * Z) : res stat :=
  let '(yi, xi) := seed in
  r ← region_ious Lyc Lxc ly patch_mask st yi xi;
  refine_decide Lyc Lxc ly patch_mask r.1 r.2 st yi xi.

(** The loop over [zip(patch_masks, stats, seeds)]: it stops at the
    shortest of the three; the records are updated in place, so the
    records past that point are returned as they were. *)
Fixpoint refine_loop (Lyc Lxc ly : Z) (patch_masks : list (array2 Z))
    (stats : list stat) (seeds : list (Z * Z)) : res (list stat) :=
  match patch_masks, stats, seeds with
  | pm :: pms, st :: stats', seed :: seeds' =>
      st' ← refine_region Lyc Lxc ly pm st seed;
      rest ← refine_loop Lyc Lxc ly pms stats' seeds';
      Ok (st' :: rest)
  | _, _, _ => Ok stats
  end.

Definition refine_masks (stats : list stat) (patches : list (array2 Q))
    (seeds : list (Z * Z)) (diam : Q) (Lyc Lxc : Z) : res (list stat) :=
  patch_masks ← patch_detect patches diam;
  patch0 ← py_index patches 0;
  let ly := Z.of_nat (length patch0) / 2 in
  refine_loop Lyc Lxc ly patch_masks stats seeds.
End RefineMasks.

(** ** Label masks: [find_objects], medians *)

(** [masks.max()] of an integer 2-D array. *)
Definition amax (m : array2 Z) : res Z :=
  match concat m with
  | [] => Err ValueError
  | x :: l => Ok (fold_left Z.max l x)
  end.

Definition list_min (x : Z) (l : list Z) : Z := fold_left Z.min l x.
Definition list_max (x : Z) (l : list Z) : Z := fold_left Z.max l x.

(** The bounding box [(r0, r1, c0, c1)] of label [k], standing for the pair
    of slices [(slice(r0, r1), slice(c0, c1))]; [None] when no pixel carries
    the label. *)
Definition bounding_box (k : Z) (m : array2 Z) : option (Z * Z * Z * Z) :=
  match nonzero (eq_scalar k m) with
  | [] => None
  | (y, x) :: pix =>
      Some (list_min y pix.*1, list_max y pix.*1 + 1,
            list_min x pix.*2, list_max x pix.*2 + 1)
  end.

(** [scipy.ndimage.find_objects(masks)]: one entry per label
    [1 .. masks.max()]. *)
Definition find_objects (m : array2 Z) : res (list (option (Z * Z * Z * Z))) :=
  mx ← amax m;
  Ok (fmap (fun k => bounding_box k m) (seqZ 1 mx)).

(** [enumerate] *)
Definition enumerate {A} (l : list A) : list (Z * A) :=
  imap (fun i a => (Z.of_nat i, a)) l.

(** Insertion sort, for medians. *)
Fixpoint qinsert (x : Q) (l : list Q) : list Q :=
  match l with
  | [] => [x]
  | y :: l' => if Qle_bool x y then x :: l else y :: qinsert x l'
  end.

Definition qsort (l : list Q) : list Q := foldr qinsert [] l.

(** [np.median] of a 1-D array: the middle element of the sorted array, or
    the mean of the two middle ones.  numpy yields nan on an empty array,
    which has no counterpart in [Q]; [0] stands for it. *)
Definition np_median (l : list Q) : Q :=
  let s := qsort l in
  let n := length s in
  if Nat.even n
  then ((nth (n / 2 - 1) s 0 + nth (n / 2) s 0) / 2)%Q
  else nth (n / 2) s 0%Q.

(** [np.argmin]: index of the first occurrence of the minimum. *)
Fixpoint argmin_from (best : Q) (ibest i : Z) (l : list Q) : Z :=
  match l with
  | [] => ibest
  | x :: l' =>
      if Qle_bool best x then argmin_from best ibest (i + 1) l'
      else argmin_from x i (i + 1) l'
  end.

Definition np_argmin (l : list Q) : res Z :=
  match l with
  | [] => Err ValueError
  | x :: l' => Ok (argmin_from x 0 1 l')
  end.

(** ** [mask_centers] *)

Section MaskCenters.
(** [utils.mask_stats(mask)]: median row, median column and diameter of a
    boolean mask. *)
Variable mask_stats : array2 bool -> res (Z * Z * Q).

(** The body of the loop of [mask_centers] for entry [i] of [slices]. *)
Definition mask_centers_step (masks : array2 Z)
    (acc : array2 Z * list Q) (entry : Z * option (Z * Z * Z * Z))
    : res (array2 Z * list Q) :=
  let '(centers, diams) := acc in
  let '(i, si) := entry in
  match si with
  | Some (r0, r1, c0, c1) =>
      s ← mask_stats (eq_scalar (i + 1) (slice2 r0 r1 c0 c1 masks));
      let '(ymed, xmed, diam) := s in
      Ok (<[Z.to_nat i := [ymed; xmed]]> centers,
          <[Z.to_nat i := diam]> diams)
  | None => Ok acc
  end.

Fixpoint mask_centers_loop (masks : array2 Z) (acc : array2 Z * list Q)
    (entries : list (Z * option (Z * Z * Z * Z)))
    : res (array2 Z * list Q) :=
  match entries with
  | [] => Ok acc
  | e :: entries' =>
      acc' ← mask_centers_step masks acc e;
      mask_centers_loop masks acc' entries'
  end.

(** The entries that the loop leaves at position [j] of [centers] and
    [diams] for the slice [si] found there. *)
Definition entry_for (masks : array2 Z) (j : nat)
    (si : option (Z * Z * Z * Z))
    (old_center : option (list Z)) (old_diam : option Q)
    (center : option (list Z)) (diam : option Q) : Prop :=
  match si with
  | Some (r0, r1, c0, c1) =>
      exists ymed xmed d,
        mask_stats (eq_scalar (Z.of_nat j + 1) (slice2 r0 r1 c0 c1 masks))
          = Ok (ymed, xmed, d) /\
        center = Some [ymed; xmed] /\ diam = Some d
  | None => center = old_center /\ diam = old_diam
  end.

(** [mask_centers(masks)]: the [(centers, diams)] pair; [centers] is the
    [masks.max() x 2] int32 array, [diams] the float32 array. *)
Definition mask_centers (masks : array2 Z) : res (array2 Z * list Q) :=
  mx ← amax masks;
  centers ← np_zeros 0 mx 2;
  diams ← (if mx <? 0 then Err ValueError
           else Ok (replicate (Z.to_nat mx) 0%Q));
  slices ← find_objects masks;
  mask_centers_loop masks (centers, diams) (enumerate slices).
End MaskCenters.

(** ** Canonical label ids ([roi_detect], lines 137-139) *)

(** [np.int32(v)] on an integer: wrap-around to 32 signed bits. *)
Definition to_int32 (v : Z) : Z := (v + 2 ^ 31) mod 2 ^ 32 - 2 ^ 31.

(** Insertion into a sorted list without duplicates. *)
Fixpoint uinsert (x : Z) (l : list Z) : list Z :=
  match l with
  | [] => [x]
  | y :: l' =>
      if x <? y then x :: l
      else if x =? y then l
      else y :: uinsert x l'
  end.

(** The first result of [np.unique]: the sorted distinct values. *)
Definition np_unique (l : list Z) : list Z := foldr uinsert [] l.

(** Position of [x] in [u]. *)
Fixpoint index_in (x : Z) (u : list Z) : Z :=
  match u with
  | [] => 0
  | y :: u' => if x =? y then 0 else 1 + index_in x u'
  end.

(** The second result of [np.unique(a, return_inverse=True)] on the
    flattened array: for every element its position in the unique array. *)
Definition unique_inverse (flat : list Z) : list Z :=
  let u := np_unique flat in
  fmap (fun v => index_in v u) flat.

(** [masks.shape] *)
Definition shape2 {A} (m : array2 A) : Z * Z :=
  (Z.of_nat (length m),
   match m with [] => 0 | row :: _ => Z.of_nat (length row) end).

(** [flat.reshape((h, w))] for [h] rows of [w] entries. *)
Fixpoint chunks {A} (h w : nat) (flat : list A) : array2 A :=
  match h with
  | O => []
  | S h' => take w flat :: chunks h' w (drop w flat)
  end.

Definition reshape {A} (shape : Z * Z) (flat : list A) : res (array2 A) :=
  let '(h, w) := shape in
  if decide (Z.of_nat (length flat) = h * w)
  then Ok (chunks (Z.to_nat h) (Z.to_nat w) flat)
  else Err ValueError.

(** Lines 137-139:
    [shape = masks.shape;
     _, masks = np.unique(np.int32(masks), return_inverse=True);
     masks = masks.reshape(shape)]. *)
Definition relabel (masks : array2 Z) : res (array2 Z) :=
  let shape := shape2 masks in
  let inv := unique_inverse (fmap to_int32 (concat masks)) in
  reshape shape inv.

(** ** [masks_to_stats] *)

Definition sq_dist (xmed ymed : Q) (x y : Z) : Q :=
  ((inject_Z x - xmed) ^ 2 + (inject_Z y - ymed) ^ 2)%Q.

(** The body of the loop of [masks_to_stats] for entry [i] of [slices];
    unpacking [sr, sc = si] raises [TypeError] when [si] is [None]. *)
Definition region_stat (masks : array2 Z) (weights : array2 Q)
    (entry : Z * option (Z * Z * Z * Z)) : res stat :=
  let '(i, si) := entry in
  match si with
  | None => Err TypeError
  | Some (r0, r1, c0, c1) =>
      let pix := nonzero (eq_scalar (i + 1) (slice2 r0 r1 c0 c1 masks)) in
      let ypix0 := fmap (fun y => y + r0) pix.*1 in
      let xpix0 := fmap (fun x => x + c0) pix.*2 in
      let ymed := np_median (fmap inject_Z ypix0) in
      let xmed := np_median (fmap inject_Z xpix0) in
      imin ← np_argmin (zip_with (sq_dist xmed ymed) xpix0 ypix0);
      xmed ← py_index xpix0 imin;
      ymed ← py_index ypix0 imin;
      lam ← fancy_get weights ypix0 xpix0;
      Ok (<["ypix" := PInts ypix0]>
          (<["xpix" := PInts xpix0]>
           (<["lam" := PFloats lam]>
            (<["med" := PIntList [ymed; xmed]]>
             (<["footprint" := PInt 1]> ∅)))))
  end.

Definition masks_to_stats (masks : array2 Z) (weights : array2 Q)
    : res (list stat) :=
  slices ← find_objects masks;
  mapM (region_stat masks weights) (enumerate slices).

(** ** Configuration values and the effects of the orchestrator *)

(** Values of the configuration mapping [ops] and of the [diameter]
    argument.  A number is not split into int and float: it counts as an
    integer when it is integral.  [OList] also stands for a 1-D ndarray. *)
#[warnings="-register-all"]
Inductive oval : Type :=
  | ONone
  | ONum (q : Q)
  | OStr (s : string)
  | OList (l : list oval)
  | OImg (a : array2 Q).

Abbreviation config := (gmap string oval).

(** What the module prints, and the call of the segmentation model. *)
Inductive event : Type :=
  | NoteDiameterSet (d : Q)
  | NoteDiameterEstimated
  | NoteNoEnhancedMean
  | NoteEstimatingFromActivity
  | NoteMasksDetected (n : Z) (median_diam : option Q)
  | NoteDetectedROIs (n : Z)
  | NoteEstimationFailedNoROIs
  | NoteEstimationFailed (e : exn)
  | CellposeEval (image_shape : Z * Z) (diameter : oval).

(** How a call ends: with a value, with an exception, or not within the
    recursion budget of the model. *)
Inductive outcome (A : Type) : Type :=
  | Done (a : A)
  | Raised (e : exn)
  | Diverged.
Arguments Done {A} a.
Arguments Raised {A} e.
Arguments Diverged {A}.

(** A computation with its trace of events. *)
Definition run (A : Type) : Type := list event * outcome A.

#[global] Instance run_ret : MRet run := fun A a => ([], Done a).
#[global] Instance run_bind : MBind run := fun A B f m =>
  match m with
  | (tr, Done a) => let '(tr', o) := f a in (tr ++ tr', o)
  | (tr, Raised e) => (tr, Raised e)
  | (tr, Diverged) => (tr, Diverged)
  end.

Definition emit (ev : event) : run unit := ([ev], Done ()).

Definition lift {A} (r : res A) : run A :=
  match r with Ok a => ([], Done a) | Err e => ([], Raised e) end.

(** [try: body except Exception as e: handler(e)] *)
Definition try_except {A} (body : run A) (handler : exn -> run A) : run A :=
  match body with
  | (tr, Raised e) => let '(tr', o) := handler e in (tr ++ tr', o)
  | r => r
  end.

(** *** Python operations on configuration values *)

(** [int(q)] on a number: truncation toward zero. *)
Definition qtrunc (q : Q) : Z := Z.quot (Qnum q) (Z.pos (Qden q)).

Definition is_integral (q : Q) : bool := Qeq_bool (inject_Z (qtrunc q)) q.

(** [int(v)]; numeric strings are not modelled. *)
Definition py_int (v : oval) : res Z :=
  match v with
  | ONum q => Ok (qtrunc q)
  | OStr _ => Err ValueError
  | ONone | OList _ | OImg _ => Err TypeError
  end.

(** [v == n] for a number [n], as the condition of an [if]. *)
Definition eq_num (v : oval) (n : Q) : bool :=
  match v with ONum q => Qeq_bool q n | _ => false end.

(** [len(v)] *)
Definition py_len (v : oval) : res Z :=
  match v with
  | OList l => Ok (Z.of_nat (length l))
  | OStr s => Ok (Z.of_nat (String.length s))
  | OImg a => Ok (Z.of_nat (length a))
  | ONone | ONum _ => Err TypeError
  end.

(** [v[i]] for a constant index; an image row is not a configuration
    value and is reported as [TypeError]. *)
Definition subscript (v : oval) (i : Z) : res oval :=
  match v with
  | OList l => py_index l i
  | OStr s => Err TypeError
  | OImg _ => Err TypeError
  | ONone | ONum _ => Err TypeError
  end.

(** [v > 0] as a condition. *)
Definition gt_zero (v : oval) : res bool :=
  match v with
  | ONum q => Ok (negb (Qle_bool q 0))
  | OImg _ => Err ValueError
  | ONone | OStr _ | OList _ => Err TypeError
  end.

(** A number used with the format [%0.2f] or as an operand. *)
Definition as_num (v : oval) : res Q :=
  match v with ONum q => Ok q | _ => Err TypeError end.

(** A number used as a slice bound. *)
Definition as_slice_bound (v : oval) : res Z :=
  match v with
  | ONum q => if is_integral q then Ok (qtrunc q) else Err TypeError
  | _ => Err TypeError
  end.

(** Truth value of [v] in a condition. *)
Definition truthy (v : oval) : res bool :=
  match v with
  | ONone => Ok false
  | ONum q => Ok (negb (Qeq_bool q 0))
  | OStr s => Ok (negb (String.eqb s ""))
  | OList l => Ok (negb (bool_decide (length l = 0%nat)))
  | OImg _ => Err ValueError
  end.

(** [a / b] on numbers. *)
Definition py_div (a b : oval) : res Q :=
  a ← as_num a; b ← as_num b;
  if Qeq_bool b 0 then Err ZeroDivisionError else Ok (a / b)%Q.

(** [a * b] on numbers.  With an operand that is not a number Python either
    raises here or hands [gaussian_filter] a sigma it rejects; both are
    reported as [TypeError]. *)
Definition py_mul (a b : oval) : res Q :=
  a ← as_num a; b ← as_num b; Ok (a * b)%Q.

(** [isinstance(v, (list, np.ndarray))] *)
Definition is_list_or_array (v : oval) : bool :=
  match v with OList _ | OImg _ => true | _ => false end.

(** ** The movie and the collaborators of the orchestrator *)

Abbreviation image := (array2 Q).

(** The binned movie, an ndarray [t x Lyc x Lxc]. *)
Record movie : Type := {
  mov_Lyc : Z;
  mov_Lxc : Z;
  mov_frames : list image
}.

(** The result of [model.eval]: a tuple of three or four entries, of which
    the module uses the masks and the diameters. *)
Inductive eval_result : Type :=
  | Eval3 (masks : array2 Z)
  | Eval4 (masks : array2 Z) (diams : oval)
  | EvalOther.

(** Numerical kernels and libraries called by [select_rois] and
    [roi_detect]. *)
Record collaborators : Type := {
  (** [mov.mean(axis=0)] *)
  mean_axis0 : movie -> image;
  (** [mov.max(axis=0)] *)
  max_axis0 : movie -> res image;
  (** [utils.temporal_high_pass_filter(mov=mov, width=w)] *)
  temporal_high_pass_filter : movie -> Z -> res movie;
  (** [np.log(np.maximum(1e-3, max_proj / np.maximum(1e-3, mean_img)))] *)
  log_ratio : image -> image -> res image;
  (** [0.1 + np.clip((m - p1) / (p99 - p1), 0, 1)] with the percentiles
      of [m] *)
  percentile_weights : image -> res image;
  (** [cv2.resize(img, (w, h))] *)
  cv2_resize : image -> Z -> Z -> res image;
  (** [cv2.resize(masks, (w, h), interpolation=cv2.INTER_NEAREST)] *)
  cv2_resize_nearest : array2 Z -> Z -> Z -> res (array2 Z);
  (** [np.clip(normalize99(img), 0, 1)] *)
  normalize99_clip : image -> res image;
  (** [img - gaussian_filter(img, sigma)] *)
  gaussian_high_pass : image -> Q -> res image;
  (** [CellposeModel(pretrained_model=p, gpu=...).eval(img, diameter=d,
      cellprob_threshold=c, flow_threshold=f)], arguments in the order
      [p img d c f] *)
  cellpose_eval : oval -> image -> oval -> oval -> oval -> res eval_result;
  (** [utils.mask_stats] *)
  mask_stats : array2 bool -> res (Z * Z * Q)
}.

(** A slice bound taken from the configuration: an integer or [None]. *)
Definition opt_slice_bound (v : oval) : res (option Z) :=
  match v with
  | ONone => Ok None
  | _ => z ← as_slice_bound v; Ok (Some z)
  end.

(** [img[y0:y1, x0:x1]] with bounds that may be [None]. *)
Definition slice2_opt {A} (y0 y1 x0 x1 : option Z) (m : array2 A) : array2 A :=
  let rows := py_slice (default 0 y0) (default (Z.of_nat (length m)) y1) m in
  fmap (fun row =>
         py_slice (default 0 x0) (default (Z.of_nat (length row)) x1) row) rows.

(** The locals of [select_rois] after the detection (line 244). *)
Record detection : Type := {
  det_masks : array2 Z;
  det_img : image;
  det_weights : image;
  det_max_proj : image;
  det_median_diam : oval
}.

Section Orchestrator.
Context (E : collaborators).

(** Lines 193-213 of [select_rois]: the detection image and the weights,
    by [ops["anatomical_only"]]. *)
Definition projection (ops : config) (mean_img max_proj : image)
    : run (image * image) :=
  mode ← lift (dict_get ops "anatomical_only");
  if eq_num mode 1 then
    img ← lift (log_ratio E max_proj mean_img);
    mret (img, max_proj)
  else if eq_num mode 2 then
    weights ← lift (percentile_weights E mean_img);
    mret (mean_img, weights)
  else if eq_num mode 3 then
    img ← match ops !! "meanImgE" with
          | Some enhanced =>
              yr ← lift (dict_get ops "yrange");
              y0 ← lift (subscript yr 0 ≫= opt_slice_bound);
              y1 ← lift (subscript yr 1 ≫= opt_slice_bound);
              xr ← lift (dict_get ops "xrange");
              x0 ← lift (subscript xr 0 ≫= opt_slice_bound);
              x1 ← lift (subscript xr 1 ≫= opt_slice_bound);
              match enhanced with
              | OImg a => mret (slice2_opt y0 y1 x0 x1 a)
              | _ => lift (Err TypeError)
              end
          | None => _ ← emit NoteNoEnhancedMean; mret mean_img
          end;
    weights ← lift (percentile_weights E mean_img);
    mret (img, weights)
  else mret (max_proj, max_proj).

(** Lines 216-232 of [select_rois]: the image, [rescale] (unbound on the
    [None] path, hence an option) and the local [diameter]. *)
Definition resolve_diameter (ops : config) (img : image) (Lyc Lxc : Z)
    (diameter : oval) : run (image * option Q * oval) :=
  match diameter with
  | ONone => _ ← emit NoteDiameterEstimated; mret (img, None, ONone)
  | _ =>
      anisotropic ←
        (if is_list_or_array diameter
         then n ← lift (dict_get ops "diameter" ≫= py_len); mret (1 <? n)
         else mret false);
      r ← (if (anisotropic : bool)
           then
             d1 ← lift (subscript diameter 1);
             d0 ← lift (subscript diameter 0);
             rescale ← lift (py_div d1 d0);
             img ← lift (cv2_resize E img Lxc
                           (qtrunc (inject_Z Lyc * rescale)));
             mret (img, rescale, diameter)
           else mret (img, 1%Q, OList [diameter; diameter]));
      let '(img, rescale, diameter) := r in
      d1 ← lift (subscript diameter 1);
      positive ← lift (gt_zero d1);
      _ ← (if (positive : bool)
           then q ← lift (as_num d1); emit (NoteDiameterSet q)
           else emit NoteDiameterEstimated);
      mret (img, Some rescale, diameter)
  end.

(** Lines 234-236 of [select_rois]. *)
Definition spatial_high_pass (ops : config) (img : image) (diameter : oval)
    : run image :=
  hp ← lift (truthy (default (ONum 0) (ops !! "spatial_hp_cp")));
  if (hp : bool) then
    img ← lift (normalize99_clip E img);
    d1 ← lift (subscript diameter 1);
    factor ← lift (dict_get ops "spatial_hp_cp");
    sigma ← lift (py_mul d1 factor);
    lift (gaussian_high_pass E img sigma)
  else mret img.

(** [ops.update(new_ops)] at the end of [select_rois]. *)
Definition update_ops (ops : config) (median_diam : oval)
    (max_proj img : image) : config :=
  <["spatscale_pix" := ONum 0]>
  (<["Vmap" := ONum 0]>
   (<["Vcorr" := OImg img]>
    (<["Vsplit" := ONum 0]>
     (<["ihop" := ONum 0]>
      (<["Vmax" := ONum 0]>
       (<["max_proj" := OImg max_proj]>
        (<["diameter" := median_diam]> ops))))))).

(** [select_rois] up to line 244, given the [roi_detect] it calls. *)
Definition select_rois_detect
    (roi_detect : config -> image -> movie -> oval -> oval -> oval -> oval ->
                  run (array2 Z * array2 Z * oval * list Z))
    (ops : config) (mov : movie) (diameter : oval) : run detection :=
  let Lyc := mov_Lyc mov in
  let Lxc := mov_Lxc mov in
  let mean_img := mean_axis0 E mov in
  width ← lift (dict_get ops "high_pass" ≫= py_int);
  mov ← lift (temporal_high_pass_filter E mov width);
  max_proj ← lift (max_axis0 E mov);
  iw ← projection ops mean_img max_proj;
  let '(img, weights) := iw in
  rd ← resolve_diameter ops img Lyc Lxc diameter;
  let '(img, rescale, diameter) := rd in
  img ← spatial_high_pass ops img diameter;
  d1 ← lift (subscript diameter 1);
  flow_threshold ← lift (dict_get ops "flow_threshold");
  cellprob_threshold ← lift (dict_get ops "cellprob_threshold");
  pretrained_model ← lift (dict_get ops "pretrained_model");
  r ← roi_detect ops img mov d1 cellprob_threshold flow_threshold
        pretrained_model;
  let '(masks, centers, median_diam, mask_diams) := r in
  rescale ← lift (match rescale with
                  | Some q => Ok q
                  | None => Err (NameError "rescale")
                  end);
  mi ← (if Qeq_bool rescale 1 then mret (masks, img)
        else
          masks ← lift (cv2_resize_nearest E masks Lxc Lyc);
          img ← lift (cv2_resize E img Lxc Lyc);
          mret (masks, img));
  let '(masks, img) := mi in
  mret {| det_masks := masks; det_img := img; det_weights := weights;
          det_max_proj := max_proj; det_median_diam := median_diam |}.

(** [select_rois]: the region records and the updated [ops]. *)
Definition select_rois_body
    (roi_detect : config -> image -> movie -> oval -> oval -> oval -> oval ->
                  run (array2 Z * array2 Z * oval * list Z))
    (ops : config) (mov : movie) (diameter : oval)
    : run (list stat * config) :=
  d ← select_rois_detect roi_detect ops mov diameter;
  stats ← lift (masks_to_stats (det_masks d) (det_weights d));
  _ ← emit (NoteDetectedROIs (Z.of_nat (length stats)));
  mret (stats, update_ops ops (det_median_diam d) (det_max_proj d)
                 (det_img d)).

(** The diameter of one region in [estimate_diameter_from_activity]. *)
Definition region_diameter (mov : movie) (s : stat) : res Q :=
  mask ← np_zeros false (mov_Lyc mov) (mov_Lxc mov);
  ypix ← dict_get s "ypix" ≫= as_index_array;
  xpix ← dict_get s "xpix" ≫= as_index_array;
  mask ← fancy_set mask ypix xpix [true];
  r ← mask_stats E mask;
  Ok r.2.

(** The [try] block of [estimate_diameter_from_activity] (lines 271-284),
    given the [select_rois] it calls (with its default [diameter=None]). *)
Definition estimate_diameter_try
    (select_rois : config -> movie -> oval -> run (list stat * config))
    (ops_copy : config) (mov : movie) : run oval :=
  r ← select_rois ops_copy mov ONone;
  let stat := r.1 in
  if 0 <? Z.of_nat (length stat) then
    diams ← lift (mapM (region_diameter mov) stat);
    mret (ONum (np_median diams))
  else
    _ ← emit NoteEstimationFailedNoROIs;
    mret ONone.

(** [estimate_diameter_from_activity]: the copy of [ops], the [try] block
    and its [except Exception] handler. *)
Definition estimate_diameter_body
    (select_rois : config -> movie -> oval -> run (list stat * config))
    (ops : config) (mov : movie) : run oval :=
  let ops_copy := <["anatomical_only" := ONum 0]> ops in
  try_except
    (estimate_diameter_try select_rois ops_copy mov)
    (fun e => _ ← emit (NoteEstimationFailed e); mret ONone).

(** The two prints at the end of [roi_detect]. *)
Definition report_masks (masks : array2 Z) (median_diam : oval) : run unit :=
  match median_diam with
  | ONone => n ← lift (amax masks); emit (NoteMasksDetected n None)
  | _ =>
      n ← lift (amax masks);
      d ← lift (as_num median_diam);
      emit (NoteMasksDetected n (Some d))
  end.

(** [roi_detect], given the [estimate_diameter_from_activity] it calls. *)
Definition roi_detect_body
    (estimate_diameter : config -> movie -> run oval)
    (ops : config) (mproj : image) (mov : movie)
    (diameter cellprob_threshold flow_threshold pretrained_model : oval)
    : run (array2 Z * array2 Z * oval * list Z) :=
  let pretrained_model :=
    match pretrained_model with ONone => OStr "cpsam" | p => p end in
  let diameter := if eq_num diameter 0 then ONone else diameter in
  _ ← emit (CellposeEval (shape2 mproj) diameter);
  eval_result ← lift (cellpose_eval E pretrained_model mproj diameter
                        cellprob_threshold flow_threshold);
  md ← match eval_result with
       | Eval4 masks diams =>
           match diams with
           | OList l =>
               qs ← lift (mapM as_num l);
               mret (masks, ONum (np_median qs))
           | OImg a => mret (masks, ONum (np_median (concat a)))
           | _ => mret (masks, diams)
           end
       | Eval3 masks =>
           _ ← emit NoteEstimatingFromActivity;
           median_diam ← estimate_diameter ops mov;
           mret (masks, median_diam)
       | EvalOther => lift (Err ValueError)
       end;
  let '(masks, median_diam) := md in
  masks ← lift (relabel masks);
  cd ← lift (mask_centers (mask_stats E) masks);
  let '(centers, mask_diams) := cd in
  _ ← report_masks masks median_diam;
  mret (masks, centers, median_diam, fmap qtrunc mask_diams).

(** The three functions call each other; [fuel] bounds the depth of the
    calls of [select_rois]. *)
Fixpoint select_rois (fuel : nat) (ops : config) (mov : movie)
    (diameter : oval) : run (list stat * config) :=
  match fuel with
  | O => ([], Diverged)
  | S fuel' =>
      select_rois_body
        (roi_detect_body (estimate_diameter_body (select_rois fuel')))
        ops mov diameter
  end.

Definition estimate_diameter_from_activity (fuel : nat)
    : config -> movie -> run oval :=
  estimate_diameter_body (select_rois fuel).

Definition roi_detect (fuel : nat)
    : config -> image -> movie -> oval -> oval -> oval -> oval ->
      run (array2 Z * array2 Z * oval * list Z) :=
  roi_detect_body (estimate_diameter_from_activity fuel).
End Orchestrator.

(** ** Reference collaborators of [refine_masks] *)

(** Modelled from the spec: [utils.square_mask] is not part of this module.
    The window of half-size [ly] centred at [(yi, xi)] has the extent
    [[yi - ly, yi + ly) x [xi - ly, xi + ly)]; it is returned as a
    [2 ly x 2 ly] array that is zero outside the frame. *)
Definition square_window (mask : array2 Q) (ly yi xi : Z) : res (array2 Q) :=
  let at_ (y x : Z) : Q :=
    if (y <? 0) || (x <? 0) then 0%Q
    else default 0%Q (mask !! Z.to_nat y ≫= fun row => row !! Z.to_nat x) in
  Ok (fmap (fun r => fmap (fun c => at_ (yi - ly + r) (xi - ly + c))
                      (seqZ 0 (2 * ly)))
          (seqZ 0 (2 * ly))).

(** Number of positions at which [f] holds of the entries of two arrays. *)
Definition count2 (f : Z -> Z -> bool) (a b : array2 Z) : Z :=
  Z.of_nat (length (filter (fun p => f p.1 p.2 = true)
                      (zip (concat a) (concat b)))).

(** Modelled from the spec: [utils.mask_ious] is not part of this module.
    For every id [k] of the first label map, |a ∩ b| / |a ∪ b| of the
    region [k] against the foreground of the second; the second component
    of the result (the matched ids) is not used by [refine_masks] and is
    left empty. *)
Definition label_ious (a b : array2 Z) : res (list Q * list Z) :=
  mx ← amax a;
  Ok (fmap (fun k =>
             let inter := count2 (fun u v => (u =? k) && (0 <? v)) a b in
             let union := count2 (fun u v => (u =? k) || (0 <? v)) a b in
             (inject_Z inter / inject_Z union)%Q)
          (seqZ 1 mx), []).

(** The iteration [i] of the loop of [refine_masks]: its patch mask, its
    record, its seed and the half-size [ly] of the patches. *)
Definition loop_entry (patch_detect : list (array2 Q) -> Q -> res (list (array2 Z)))
    (stats : list stat) (patches : list (array2 Q)) (seeds : list (Z * Z))
    (diam : Q) (i : nat) (ly : Z) (pm : array2 Z) (st : stat) (seed : Z * Z)
    : Prop :=
  exists patch_masks patch0,
    patch_detect patches diam = Ok patch_masks /\
    py_index patches 0 = Ok patch0 /\
    ly = Z.of_nat (length patch0) / 2 /\
    patch_masks !! i = Some pm /\ stats !! i = Some st /\
    seeds !! i = Some seed.

(** ** A synthetic 10 x 10 frame *)

(** A region with a 3 x 3 footprint at rows and columns 4..6, one weight of
    which is negative. *)
Definition block_stat : stat :=
  <["ypix" := PInts [4; 4; 4; 5; 5; 5; 6; 6; 6]]>
  (<["xpix" := PInts [4; 5; 6; 4; 5; 6; 4; 5; 6]]>
   (<["lam" := PFloats [1; -1; 2; 3; 4; 5; 6; 7; 8]%Q]>
    (<["med" := PIntList [5; 5]]> (<["footprint" := PInt 1]> ∅)))).

(** The same footprint against the upper edge of the frame (rows 0..2). *)
Definition edge_stat : stat :=
  <["ypix" := PInts [0; 0; 0; 1; 1; 1; 2; 2; 2]]>
  (<["xpix" := PInts [4; 5; 6; 4; 5; 6; 4; 5; 6]]>
   (<["lam" := PFloats [1; 1; 2; 3; 4; 5; 6; 7; 8]%Q]> ∅)).

(** A 6 x 6 patch (its content is only seen by the network). *)
Definition blank_patch : array2 Q := replicate 6 (replicate 6 0%Q).

(** The decoded patch mask with label 1 on the central 3 x 3 block. *)
Definition block_patch_mask : array2 Z :=
  [[0; 0; 0; 0; 0; 0];
   [0; 0; 0; 0; 0; 0];
   [0; 0; 1; 1; 1; 0];
   [0; 0; 1; 1; 1; 0];
   [0; 0; 1; 1; 1; 0];
   [0; 0; 0; 0; 0; 0]].

(** A decoded patch mask with label 1 on 20 pixels, 9 of which are the
    central block: against a positive 3 x 3 footprint its IOU is 9/20. *)
Definition wide_patch_mask : array2 Z :=
  [[0; 0; 0; 0; 0; 0];
   [0; 1; 1; 1; 1; 1];
   [0; 1; 1; 1; 1; 1];
   [0; 1; 1; 1; 1; 1];
   [0; 1; 1; 1; 1; 1];
   [0; 0; 0; 0; 0; 0]].

(** A network stand-in that decodes every patch to the same mask. *)
Definition constant_detect (pm : array2 Z)
    : list (array2 Q) -> Q -> res (list (array2 Z)) :=
  fun patches _ => Ok ((fun _ => pm) <$> patches).

(** ** A reference [utils.mask_stats] *)

(** Modelled from the spec: [utils.mask_stats] is not part of this module.
    It returns the median row and column of the pixels of a boolean mask
    and a diameter, and fails on a mask without pixels.  The source takes a
    square root for the diameter; the integer square root of the pixel count
    stands for it here. *)
Definition pixel_stats (b : array2 bool) : res (Z * Z * Q) :=
  match nonzero b with
  | [] => Err ValueError
  | pix =>
      Ok (qtrunc (np_median (inject_Z <$> pix.*1)),
          qtrunc (np_median (inject_Z <$> pix.*2)),
          inject_Z (Z.sqrt (Z.of_nat (length pix))))
  end.

(** A label mask in which id 2 has no pixel. *)
Definition gap_mask : array2 Z :=
  [[0; 1; 1; 0];
   [0; 1; 0; 0];
   [0; 0; 3; 3]].

(** A label mask whose region 1 is a ring: the coordinate-wise median of
    its pixels, (1, 1), is not one of them. *)
Definition ring_mask : array2 Z :=
  [[1; 1; 1; 0];
   [1; 0; 1; 0];
   [1; 1; 1; 2]].

Definition unit_weights : array2 Q := replicate 3 (replicate 4 1%Q).

(** The records of the two regions of [ring_mask] under unit weights. *)
Definition ring_stat : stat :=
  <["ypix" := PInts [0; 0; 0; 1; 1; 2; 2; 2]]>
  (<["xpix" := PInts [0; 1; 2; 0; 2; 0; 1; 2]]>
   (<["lam" := PFloats [1; 1; 1; 1; 1; 1; 1; 1]%Q]>
    (<["med" := PIntList [0; 1]]> (<["footprint" := PInt 1]> ∅)))).

Definition corner_stat : stat :=
  <["ypix" := PInts [2]]>
  (<["xpix" := PInts [3]]>
   (<["lam" := PFloats [1%Q]]>
    (<["med" := PIntList [2; 3]]> (<["footprint" := PInt 1]> ∅)))).

(** A label mask without background pixel, ids 1 and 2. *)
Definition full_mask : array2 Z := [[1; 1]; [1; 2]].

(** ** Traces *)

Definition is_eval (ev : event) : bool :=
  match ev with CellposeEval _ _ => true | _ => false end.

(** The segmentation model is not called in the trace. *)
Definition no_eval (tr : list event) : Prop :=
  Forall (fun ev => is_eval ev = false) tr.

(** A computation that ends (with a value or an exception) without a call
    of the model. *)
Definition quiet {A} (m : run A) : Prop :=
  no_eval m.1 /\ m.2 <> Diverged.

(** A computation that raises without a call of the model. *)
Definition raises_quietly {A} (m : run A) : Prop :=
  no_eval m.1 /\ exists e, m.2 = Raised e.

(** ** Reference collaborators of the orchestrator *)

(** Modelled from the spec: OpenCV is not part of this module.  Nearest
    neighbour resize to [h] rows of [w] entries; OpenCV rejects an empty
    source and an empty target. *)
Definition nearest_resize {A} (m : array2 A) (w h : Z) : res (array2 A) :=
  match m with
  | (x0 :: _) :: _ =>
      if (w <=? 0) || (h <=? 0) then Err (ExternalError "cv2.resize")
      else
        let H := Z.of_nat (length m) in
        Ok ((fun r =>
               let row := default [] (m !! Z.to_nat (r * H / h)) in
               let W := Z.of_nat (length row) in
               (fun c => default x0 (row !! Z.to_nat (c * W / w)))
               <$> seqZ 0 w)
            <$> seqZ 0 h)
  | _ => Err (ExternalError "cv2.resize")
  end.

(** A model stand-in: it labels the upper left pixel 1 and the rest
    background, and reports the diameter it was given. *)
Definition corner_model (p : oval) (img : image) (d c f : oval)
    : res eval_result :=
  Ok (Eval4 (imap (fun i row => imap (fun j _ =>
                 if ((i =? 0) && (j =? 0))%nat then 1 else 0) row) img) d).

(** Stand-ins for the numerical kernels, enough to run the orchestrator:
    the projections take the first frame, the filters are the identity. *)
Definition reference_collaborators : collaborators := {|
  mean_axis0 := fun mov => default [] (head (mov_frames mov));
  max_axis0 := fun mov =>
    match mov_frames mov with
    | [] => Err ValueError
    | f :: _ => Ok f
    end;
  temporal_high_pass_filter := fun mov _ => Ok mov;
  log_ratio := fun a _ => Ok a;
  percentile_weights := fun a => Ok a;
  cv2_resize := nearest_resize;
  cv2_resize_nearest := nearest_resize;
  normalize99_clip := fun a => Ok a;
  gaussian_high_pass := fun a _ => Ok a;
  cellpose_eval := corner_model;
  mask_stats := pixel_stats
|}.

(** A movie of two 2 x 3 frames and a configuration with the anisotropic
    diameter [10, 20]. *)
Definition tiny_movie : movie := {|
  mov_Lyc := 2; mov_Lxc := 3;
  mov_frames := [[[1; 2; 3]; [4; 5; 6]]; [[1; 2; 3]; [4; 5; 6]]]%Q
|}.

Definition tiny_ops : config :=
  <["high_pass" := ONum 100]>
  (<["anatomical_only" := ONum 0]>
   (<["diameter" := OList [ONum 10; ONum 20]]>
    (<["flow_threshold" := ONum (4 # 10)]>
     (<["cellprob_threshold" := ONum 0]>
      (<["pretrained_model" := ONone]> ∅))))).

(** * Properties *)

(** ** Fallible computations *)

Lemma bind_Ok {A B} (m : res A) (f : A -> res B) (b : B) :
  m ≫= f = Ok b -> exists a, m = Ok a /\ f a = Ok b.
Proof. destruct m as [a|e]; simpl; [eauto | discriminate]. Qed.

Lemma bind_Ok_l {A B} (m : res A) (f : A -> res B) (a : A) :
  m = Ok a -> m ≫= f = f a.
Proof. intros ->. reflexivity. Qed.

Ltac res_inv H :=
  repeat match type of H with
  | _ ≫= _ = Ok _ =>
      let a := fresh "a" in
      let Ha := fresh "Ha" in
      apply bind_Ok in H as (a & Ha & H)
  | Ok _ = Ok _ => injection H as H
  | Err _ = Ok _ => discriminate H
  end.

(** Lookup of a literal key in a dict built by successive assignments. *)
Ltac dict_lookup :=
  repeat first
    [ rewrite lookup_insert_eq
    | rewrite lookup_insert_ne by discriminate ];
  try reflexivity.

Lemma mapM_res_Ok {A B} (f : A -> res B) (l : list A) (k : list B) :
  mapM f l = Ok k -> Forall2 (fun a b => f a = Ok b) l k.
Proof.
  revert k. induction l as [|a l IH]; intros k H.
  - injection H as <-. constructor.
  - cbn in H. res_inv H. cbn in H. res_inv H. cbn in H.
    injection H as <-. constructor; auto.
Qed.

(** ** Comparisons of rationals *)

Lemma Qle_bool_false (a b : Q) : Qle_bool a b = false <-> (b < a)%Q.
Proof.
  split.
  - intros H. apply Qnot_le_lt. intros Hle.
    apply Qle_bool_iff in Hle. congruence.
  - intros H. destruct (Qle_bool a b) eqn:E; [|reflexivity].
    apply Qle_bool_iff in E. exfalso. exact (Qlt_not_le _ _ H E).
Qed.

(** ** Arrays: [nonzero], slices *)

Lemma elem_of_true_indices (row : list bool) (j x : Z) :
  x ∈ true_indices j row <->
  j <= x /\ row !! Z.to_nat (x - j) = Some true.
Proof.
  revert j. induction row as [|b row IH]; intros j; simpl.
  - split; [intros H; inversion H | intros [_ H]; discriminate].
  - rewrite elem_of_app, IH. split.
    + intros [H | [Hj H]].
      * destruct b; [|inversion H].
        apply list_elem_of_singleton in H as ->.
        split; [lia|]. by replace (j - j) with 0 by lia.
      * split; [lia|].
        replace (Z.to_nat (x - j)) with (S (Z.to_nat (x - (j + 1)))) by lia.
        exact H.
    + intros [Hj H]. destruct (decide (x = j)) as [->|Hne].
      * left. replace (j - j) with 0 in H by lia. simpl in H.
        injection H as ->. apply list_elem_of_singleton. reflexivity.
      * right. split; [lia|].
        replace (Z.to_nat (x - j)) with (S (Z.to_nat (x - (j + 1)))) in H
          by lia.
        exact H.
Qed.

Lemma elem_of_nonzero_from (m : array2 bool) (i y x : Z) :
  (y, x) ∈ nonzero_from i m <->
  i <= y /\ 0 <= x /\
  exists row, m !! Z.to_nat (y - i) = Some row /\
              row !! Z.to_nat x = Some true.
Proof.
  revert i. induction m as [|r m IH]; intros i; simpl.
  - split; [intros H; inversion H | intros (_ & _ & row & H & _); discriminate].
  - rewrite elem_of_app, IH, list_elem_of_fmap. split.
    + intros [(x' & Heq & Hx) | (Hi & Hx & row & Hrow & Htrue)].
      * injection Heq as -> ->. apply elem_of_true_indices in Hx as [Hx Ht].
        replace (x' - 0) with x' in Ht by lia.
        split; [lia|]. split; [lia|]. exists r.
        replace (i - i) with 0 by lia. auto.
      * split; [lia|]. split; [lia|]. exists row. split; [|exact Htrue].
        replace (Z.to_nat (y - i)) with (S (Z.to_nat (y - (i + 1)))) by lia.
        exact Hrow.
    + intros (Hi & Hx & row & Hrow & Htrue).
      destruct (decide (y = i)) as [->|Hne].
      * left. exists x. split; [reflexivity|].
        replace (i - i) with 0 in Hrow by lia. simpl in Hrow.
        injection Hrow as ->. apply elem_of_true_indices.
        split; [lia|]. by replace (x - 0) with x by lia.
      * right. split; [lia|]. split; [lia|]. exists row. split; [|exact Htrue].
        replace (Z.to_nat (y - i)) with (S (Z.to_nat (y - (i + 1)))) in Hrow
          by lia.
        exact Hrow.
Qed.

Lemma elem_of_nonzero (m : array2 bool) (y x : Z) :
  (y, x) ∈ nonzero m <->
  0 <= y /\ 0 <= x /\
  exists row, m !! Z.to_nat y = Some row /\ row !! Z.to_nat x = Some true.
Proof.
  unfold nonzero. rewrite elem_of_nonzero_from.
  by replace (y - 0) with y by lia.
Qed.

Lemma eq_scalar_lookup (k : Z) (m : array2 Z) (y x : nat) (row : list bool) :
  eq_scalar k m !! y = Some row -> row !! x = Some true ->
  exists row', m !! y = Some row' /\ row' !! x = Some k.
Proof.
  unfold eq_scalar. rewrite list_lookup_fmap. intros Hrow Hx.
  destruct (m !! y) as [row'|] eqn:E; [|discriminate].
  injection Hrow as <-. rewrite list_lookup_fmap in Hx.
  destruct (row' !! x) as [v|] eqn:Ev; [|discriminate].
  injection Hx as Hx. apply bool_decide_eq_true in Hx as ->. eauto.
Qed.

Lemma eq_scalar_lookup_true (k : Z) (m : array2 Z) (y x : nat) (row : list Z) :
  m !! y = Some row -> row !! x = Some k ->
  exists brow, eq_scalar k m !! y = Some brow /\ brow !! x = Some true.
Proof.
  intros Hrow Hx. unfold eq_scalar. rewrite list_lookup_fmap, Hrow. simpl.
  eexists. split; [reflexivity|]. rewrite list_lookup_fmap, Hx. simpl.
  by rewrite bool_decide_eq_true_2.
Qed.

(** A pixel of [np.nonzero(m == k)] carries the label [k]. *)
Lemma nonzero_eq_scalar (k : Z) (m : array2 Z) (y x : Z) :
  (y, x) ∈ nonzero (eq_scalar k m) <->
  0 <= y /\ 0 <= x /\
  exists row, m !! Z.to_nat y = Some row /\ row !! Z.to_nat x = Some k.
Proof.
  rewrite elem_of_nonzero. split.
  - intros (Hy & Hx & row & Hrow & Ht).
    destruct (eq_scalar_lookup _ _ _ _ _ Hrow Ht) as (row' & ? & ?). eauto 6.
  - intros (Hy & Hx & row & Hrow & Hk).
    destruct (eq_scalar_lookup_true _ _ _ _ _ Hrow Hk) as (brow & ? & ?).
    eauto 6.
Qed.

Lemma slice_bound_range (n i : Z) : 0 <= n -> 0 <= slice_bound n i <= n.
Proof. unfold slice_bound. intros Hn. destruct (i <? 0) eqn:E; lia. Qed.

(** An element of [l[a:b]] at position [k] is the element of [l] at
    position [a' + k], where [a'] is the normalised start, and [a' + k]
    lies before the normalised stop. *)
Lemma py_slice_lookup {A} (a b : Z) (l : list A) (k : nat) (v : A) :
  py_slice a b l !! k = Some v ->
  let n := Z.of_nat (length l) in
  l !! (Z.to_nat (slice_bound n a) + k)%nat = Some v /\
  slice_bound n a + Z.of_nat k < slice_bound n b.
Proof.
  unfold py_slice. intros H. simpl.
  apply lookup_take_Some in H as [H Hk].
  rewrite lookup_drop in H. split; [exact H|].
  pose proof (slice_bound_range (Z.of_nat (length l)) a ltac:(lia)).
  lia.
Qed.

Lemma py_slice_lookup_inv {A} (a b : Z) (l : list A) (k : nat) (v : A) :
  let n := Z.of_nat (length l) in
  l !! (Z.to_nat (slice_bound n a) + k)%nat = Some v ->
  slice_bound n a + Z.of_nat k < slice_bound n b ->
  py_slice a b l !! k = Some v.
Proof.
  simpl. intros H Hk. unfold py_slice.
  pose proof (slice_bound_range (Z.of_nat (length l)) a ltac:(lia)).
  apply lookup_take_Some. rewrite lookup_drop. split; [exact H | lia].
Qed.

Lemma slice2_lookup {A} (r0 r1 c0 c1 : Z) (m : array2 A) (y x : nat)
    (row : list A) (v : A) :
  slice2 r0 r1 c0 c1 m !! y = Some row -> row !! x = Some v ->
  exists row',
    m !! (Z.to_nat (slice_bound (Z.of_nat (length m)) r0) + y)%nat = Some row' /\
    slice_bound (Z.of_nat (length m)) r0 + Z.of_nat y
      < slice_bound (Z.of_nat (length m)) r1 /\
    row' !! (Z.to_nat (slice_bound (Z.of_nat (length row')) c0) + x)%nat
      = Some v /\
    slice_bound (Z.of_nat (length row')) c0 + Z.of_nat x
      < slice_bound (Z.of_nat (length row')) c1.
Proof.
  unfold slice2. rewrite list_lookup_fmap. intros Hrow Hx.
  destruct (py_slice r0 r1 m !! y) as [row'|] eqn:E; [|discriminate].
  injection Hrow as <-.
  apply py_slice_lookup in E as [E1 E2].
  apply py_slice_lookup in Hx as [X1 X2].
  exists row'. auto.
Qed.

(** ** [refine_masks] *)

Lemma np_max_nonempty (l : list Q) : l <> [] -> exists m, np_max l = Ok m.
Proof. destruct l; [congruence | simpl; eauto]. Qed.

(** The test of line 93 never raises, and holds exactly when the largest
    IOU exists and is above the threshold. *)
Lemma accepts_spec (ious : list Q) :
  exists b, accepts ious = Ok b /\
    (b = true <-> exists m, np_max ious = Ok m /\ (iou_threshold < m)%Q).
Proof.
  unfold accepts. destruct ious as [|x l]; simpl.
  - exists false. split; [reflexivity|].
    split; [discriminate | intros (m & H & _); discriminate].
  - eexists. split; [reflexivity|]. rewrite negb_true_iff, Qle_bool_false.
    split; [eauto | intros (m & [= <-] & H); exact H].
Qed.

Section RefineProps.
Variable square_mask : array2 Q -> Z -> Z -> Z -> res (array2 Q).
Variable mask_ious : array2 Z -> array2 Z -> res (list Q * list Z).
Variable patch_detect : list (array2 Q) -> Q -> res (list (array2 Z)).

Lemma refine_loop_lookup Lyc Lxc ly pms stats seeds out :
  refine_loop square_mask mask_ious Lyc Lxc ly pms stats seeds = Ok out ->
  forall (i : nat) pm st seed,
    pms !! i = Some pm -> stats !! i = Some st -> seeds !! i = Some seed ->
    exists st',
      out !! i = Some st' /\
      refine_region square_mask mask_ious Lyc Lxc ly pm st seed = Ok st'.
Proof.
  revert stats seeds out.
  induction pms as [|pm0 pms IH]; intros stats seeds out H i pm st seed
    Hpm Hst Hseed; [discriminate|].
  destruct stats as [|st0 stats]; [discriminate|].
  destruct seeds as [|seed0 seeds]; [discriminate|].
  cbn [refine_loop] in H. res_inv H. subst out.
  destruct i as [|i]; simpl in *.
  - injection Hpm as <-. injection Hst as <-. injection Hseed as <-. eauto.
  - eapply IH; eauto.
Qed.

(** Within a run of [refine_masks] that returns, iteration [i] is a call
    of the loop body whose result is entry [i] of the returned list. *)
Lemma refine_masks_entry stats patches seeds diam Lyc Lxc out i ly pm st
    seed :
  refine_masks square_mask mask_ious patch_detect stats patches seeds diam
    Lyc Lxc = Ok out ->
  loop_entry patch_detect stats patches seeds diam i ly pm st seed ->
  exists st',
    out !! i = Some st' /\
    refine_region square_mask mask_ious Lyc Lxc ly pm st seed = Ok st'.
Proof.
  intros H (pms & p0 & Hpd & Hp0 & -> & Hpm & Hst & Hseed).
  unfold refine_masks in H. rewrite Hpd in H. simpl in H.
  rewrite Hp0 in H. simpl in H.
  eapply refine_loop_lookup; eauto.
Qed.

Lemma refine_region_decide Lyc Lxc ly pm st yi xi fm ious st' :
  region_ious square_mask mask_ious Lyc Lxc ly pm st yi xi = Ok (fm, ious) ->
  refine_region square_mask mask_ious Lyc Lxc ly pm st (yi, xi) = Ok st' ->
  refine_decide Lyc Lxc ly pm fm ious st yi xi = Ok st'.
Proof. unfold refine_region. intros ->. simpl. auto. Qed.

Lemma adopt_footprint_fields Lyc Lxc ly pm fm ious st yi xi st' :
  adopt_footprint Lyc Lxc ly pm fm ious st yi xi = Ok st' ->
  exists imax lam0,
    np_argmax ious = Ok imax /\
    let r0 := Z.max 0 (ly - yi) in
    let r1 := Z.min (2 * ly) (Lyc + ly - yi) in
    let c0 := Z.max 0 (ly - xi) in
    let c1 := Z.min (2 * ly) (Lxc + ly - xi) in
    let pix := nonzero (eq_scalar (imax + 1) (slice2 r0 r1 c0 c1 pm)) in
    (fancy_get (slice2 r0 r1 c0 c1 fm) pix.*1 pix.*2
       ≫= replace_nonpositive) = Ok lam0 /\
    st' !! "ypix"
      = Some (PInts ((fun y => y + Z.max 0 (yi - ly)) <$> pix.*1)) /\
    st' !! "xpix"
      = Some (PInts ((fun x => x + Z.max 0 (xi - ly)) <$> pix.*2)) /\
    st' !! "lam" = Some (PFloats lam0) /\
    st' !! "anatomical" = Some (PBool true).
Proof.
  unfold adopt_footprint. intros H. res_inv H. subst st'.
  exists a, a1. split; [assumption|]. simpl. rewrite Ha0. simpl.
  split; [assumption|].
  repeat split; dict_lookup.
Qed.

Lemma refine_decide_adopted Lyc Lxc ly pm fm ious st yi xi st' :
  refine_decide Lyc Lxc ly pm fm ious st yi xi = Ok st' ->
  st' !! "anatomical" = Some (PBool true) ->
  accepts ious = Ok true /\
  adopt_footprint Lyc Lxc ly pm fm ious st yi xi = Ok st'.
Proof.
  unfold refine_decide. intros H Hflag.
  destruct (accepts_spec ious) as (b & Hb & _). rewrite Hb in H. simpl in H.
  destruct b; [by rewrite Hb|].
  injection H as <-. revert Hflag. dict_lookup. discriminate.
Qed.

Lemma refine_decide_rejected Lyc Lxc ly pm fm ious st yi xi :
  accepts ious = Ok false ->
  refine_decide Lyc Lxc ly pm fm ious st yi xi
    = Ok (<["anatomical" := PBool false]> st).
Proof. unfold refine_decide. intros ->. reflexivity. Qed.
End RefineProps.

Lemma slice_bound_nonneg (n i : Z) : 0 <= i -> slice_bound n i = Z.min i n.
Proof. unfold slice_bound. intros H. destruct (i <? 0) eqn:E; lia. Qed.

(** Pixels read from a crop [m[r0:r1, c0:c1]] with non-negative bounds lie
    in [[0, r1 - r0) x [0, c1 - c0)]. *)
Lemma nonzero_slice2_bounds (k r0 r1 c0 c1 : Z) (m : array2 Z) (y x : Z) :
  0 <= r0 -> 0 <= r1 -> 0 <= c0 -> 0 <= c1 ->
  (y, x) ∈ nonzero (eq_scalar k (slice2 r0 r1 c0 c1 m)) ->
  0 <= y < r1 - r0 /\ 0 <= x < c1 - c0.
Proof.
  intros Hr0 Hr1 Hc0 Hc1 H.
  apply nonzero_eq_scalar in H as (Hy & Hx & row & Hrow & Hk).
  destruct (slice2_lookup _ _ _ _ _ _ _ _ _ Hrow Hk)
    as (row' & _ & Hrows & _ & Hcols).
  rewrite !slice_bound_nonneg in Hrows, Hcols by assumption.
  lia.
Qed.

Section RefineClaims.
Variable square_mask : array2 Q -> Z -> Z -> Z -> res (array2 Q).
Variable mask_ious : array2 Z -> array2 Z -> res (list Q * list Z).
Variable patch_detect : list (array2 Q) -> Q -> res (list (array2 Z)).

(** C4.  In a run of [refine_masks], the record of a region comes back
    flagged as anatomical exactly when its largest IOU is strictly above
    0.45; a region whose largest IOU equals 0.45 comes back as it was,
    flagged as not anatomical. *)
Theorem refine_masks_threshold_strict stats patches seeds diam Lyc Lxc out
    i ly pm st yi xi fm ious :
  refine_masks square_mask mask_ious patch_detect stats patches seeds diam
    Lyc Lxc = Ok out ->
  loop_entry patch_detect stats patches seeds diam i ly pm st (yi, xi) ->
  region_ious square_mask mask_ious Lyc Lxc ly pm st yi xi = Ok (fm, ious) ->
  exists st',
    out !! i = Some st' /\
    (st' !! "anatomical" = Some (PBool true) <->
     exists m, np_max ious = Ok m /\ (iou_threshold < m)%Q) /\
    (forall m, np_max ious = Ok m -> (m == iou_threshold)%Q ->
               st' = <["anatomical" := PBool false]> st).
Proof.
  intros Hrun Hentry Hious.
  destruct (refine_masks_entry _ _ _ _ _ _ _ _ _ _ _ _ _ _ _ Hrun Hentry)
    as (st' & Hout & Hreg).
  pose proof (refine_region_decide _ _ _ _ _ _ _ _ _ _ _ _ Hious Hreg)
    as Hdec.
  exists st'. split; [exact Hout|].
  destruct (accepts_spec ious) as (b & Hb & Hiff).
  split; [split|].
  - intros Hflag.
    destruct (refine_decide_adopted _ _ _ _ _ _ _ _ _ _ Hdec Hflag)
      as [Hacc _].
    apply Hiff. congruence.
  - intros Hm. apply Hiff in Hm as ->.
    unfold refine_decide in Hdec. rewrite Hb in Hdec. simpl in Hdec.
    by destruct (adopt_footprint_fields _ _ _ _ _ _ _ _ _ _ Hdec)
      as (? & ? & _ & _ & _ & _ & _ & ?).
  - intros m Hm Heq. destruct b.
    + destruct Hiff as [Hiff _].
      destruct (Hiff eq_refl) as (m' & Hm' & Hlt).
      rewrite Hm in Hm'. injection Hm' as <-.
      rewrite Heq in Hlt. exfalso. exact (Qlt_irrefl _ Hlt).
    + rewrite (refine_decide_rejected _ _ _ _ _ _ _ _ _ Hb) in Hdec.
      by injection Hdec as <-.
Qed.

(** C9.  In a run of [refine_masks], a region whose IOU array is empty or
    whose largest IOU is at most 0.45 keeps its record: [ypix], [xpix],
    [lam] and every other key but ["anatomical"] are as before, and
    ["anatomical"] is [False]. *)
Theorem refine_masks_unrefined_frame stats patches seeds diam Lyc Lxc out
    i ly pm st yi xi fm ious :
  refine_masks square_mask mask_ious patch_detect stats patches seeds diam
    Lyc Lxc = Ok out ->
  loop_entry patch_detect stats patches seeds diam i ly pm st (yi, xi) ->
  region_ious square_mask mask_ious Lyc Lxc ly pm st yi xi = Ok (fm, ious) ->
  (ious = [] \/ exists m, np_max ious = Ok m /\ (m <= iou_threshold)%Q) ->
  exists st',
    out !! i = Some st' /\
    st' = <["anatomical" := PBool false]> st /\
    st' !! "ypix" = st !! "ypix" /\
    st' !! "xpix" = st !! "xpix" /\
    st' !! "lam" = st !! "lam" /\
    st' !! "anatomical" = Some (PBool false) /\
    (forall k, k <> "anatomical" -> st' !! k = st !! k).
Proof.
  intros Hrun Hentry Hious Hlow.
  destruct (refine_masks_entry _ _ _ _ _ _ _ _ _ _ _ _ _ _ _ Hrun Hentry)
    as (st' & Hout & Hreg).
  pose proof (refine_region_decide _ _ _ _ _ _ _ _ _ _ _ _ Hious Hreg)
    as Hdec.
  assert (Hrej : accepts ious = Ok false).
  { destruct (accepts_spec ious) as ([] & Hb & Hiff); [|exact Hb].
    destruct Hiff as [Hiff _]. destruct (Hiff eq_refl) as (m & Hm & Hlt).
    destruct Hlow as [-> | (m' & Hm' & Hle)]; [discriminate|].
    rewrite Hm in Hm'. injection Hm' as <-.
    exfalso. exact (Qlt_not_le _ _ Hlt Hle). }
  rewrite (refine_decide_rejected _ _ _ _ _ _ _ _ _ Hrej) in Hdec.
  injection Hdec as <-.
  exists (<["anatomical" := PBool false]> st).
  split; [exact Hout|]. split; [reflexivity|].
  repeat split; dict_lookup.
  intros k Hk. by rewrite lookup_insert_ne.
Qed.

(** C6.  In a run of [refine_masks], the pixel coordinates of an adopted
    footprint lie inside the frame [[0, Lyc) x [0, Lxc)], for every seed
    whose patch window starts at or before the far edge of the frame
    ([yi - ly <= Lyc], [xi - ly <= Lxc]); this covers every seed inside
    the frame and windows that leave the frame on one or both sides. *)
Theorem refine_masks_pixels_in_frame stats patches seeds diam Lyc Lxc out
    i ly pm st yi xi st' :
  refine_masks square_mask mask_ious patch_detect stats patches seeds diam
    Lyc Lxc = Ok out ->
  loop_entry patch_detect stats patches seeds diam i ly pm st (yi, xi) ->
  out !! i = Some st' ->
  st' !! "anatomical" = Some (PBool true) ->
  yi - ly <= Lyc -> xi - ly <= Lxc ->
  exists pix : list (Z * Z),
    st' !! "ypix" = Some (PInts pix.*1) /\
    st' !! "xpix" = Some (PInts pix.*2) /\
    Forall (fun p => 0 <= p.1 < Lyc /\ 0 <= p.2 < Lxc) pix.
Proof.
  intros Hrun Hentry Hout Hflag Hy Hx.
  destruct (refine_masks_entry _ _ _ _ _ _ _ _ _ _ _ _ _ _ _ Hrun Hentry)
    as (st'' & Hout' & Hreg).
  rewrite Hout in Hout'. injection Hout' as <-.
  assert (Hly : 0 <= ly).
  { destruct Hentry as (? & p0 & _ & _ & -> & _). apply Z.div_pos; lia. }
  unfold refine_region in Hreg. res_inv Hreg.
  destruct (refine_decide_adopted _ _ _ _ _ _ _ _ _ _ Hreg Hflag)
    as [_ Hadopt].
  destruct (adopt_footprint_fields _ _ _ _ _ _ _ _ _ _ Hadopt)
    as (imax & lam0 & _ & _ & Hyp & Hxp & _ & _).
  simpl in Hyp, Hxp.
  set (pix := nonzero _) in Hyp, Hxp.
  exists ((fun p => (p.1 + Z.max 0 (yi - ly), p.2 + Z.max 0 (xi - ly)))
            <$> pix).
  split; [|split].
  - rewrite Hyp. do 2 f_equal. rewrite <- !list_fmap_compose.
    by apply list_fmap_ext.
  - rewrite Hxp. do 2 f_equal. rewrite <- !list_fmap_compose.
    by apply list_fmap_ext.
  - apply Forall_fmap, Forall_forall. intros [y x] Hin. simpl.
    apply nonzero_slice2_bounds in Hin; lia.
Qed.
End RefineClaims.

Lemma refine_masks_threshold_strict_witness :
  exists st',
    [<["anatomical" := PBool false]> edge_stat] !! 0%nat = Some st' /\
    st' = <["anatomical" := PBool false]> edge_stat.
Proof.
  edestruct (refine_masks_threshold_strict square_window label_ious
               (constant_detect wide_patch_mask)
               [edge_stat] [blank_patch] [(1, 5)] 12%Q 10 10
               [<["anatomical" := PBool false]> edge_stat] 0%nat 3
               wide_patch_mask edge_stat 1 5)
    as (st' & Hout & _ & Heq).
  - vm_compute. reflexivity.
  - exists [wide_patch_mask], blank_patch. repeat split; reflexivity.
  - vm_compute. reflexivity.
  - exists st'. split; [exact Hout|].
    apply (Heq (9 # 20)%Q); reflexivity.
Defined.

Lemma refine_masks_unrefined_frame_witness :
  exists st',
    [<["anatomical" := PBool false]> edge_stat] !! 0%nat = Some st' /\
    st' !! "ypix" = edge_stat !! "ypix" /\
    st' !! "anatomical" = Some (PBool false).
Proof.
  edestruct (refine_masks_unrefined_frame square_window label_ious
               (constant_detect wide_patch_mask)
               [edge_stat] [blank_patch] [(1, 5)] 12%Q 10 10
               [<["anatomical" := PBool false]> edge_stat] 0%nat 3
               wide_patch_mask edge_stat 1 5)
    as (st' & Hout & _ & Hy & _ & _ & Hflag & _).
  - vm_compute. reflexivity.
  - exists [wide_patch_mask], blank_patch. repeat split; reflexivity.
  - vm_compute. reflexivity.
  - right. exists (9 # 20)%Q. split; [reflexivity|]. vm_compute. discriminate.
  - exists st'. auto.
Defined.

(** The record that [refine_masks] returns for [edge_stat] when the patch
    mask matches its footprint. *)
Lemma refine_masks_edge_run :
  refine_masks square_window label_ious (constant_detect block_patch_mask)
    [edge_stat] [blank_patch] [(1, 5)] 12%Q 10 10
  = Ok [<["anatomical" := PBool true]> edge_stat].
Proof. vm_compute. reflexivity. Qed.

Lemma refine_masks_pixels_in_frame_witness :
  exists pix : list (Z * Z),
    edge_stat !! "ypix" = Some (PInts pix.*1) /\
    Forall (fun p => 0 <= p.1 < 10 /\ 0 <= p.2 < 10) pix.
Proof.
  destruct (refine_masks_pixels_in_frame square_window label_ious
              (constant_detect block_patch_mask)
              [edge_stat] [blank_patch] [(1, 5)] 12%Q 10 10
              [<["anatomical" := PBool true]> edge_stat] 0%nat 3
              block_patch_mask edge_stat 1 5
              (<["anatomical" := PBool true]> edge_stat))
    as (pix & Hy & _ & Hall).
  - exact refine_masks_edge_run.
  - exists [block_patch_mask], blank_patch. repeat split; reflexivity.
  - reflexivity.
  - vm_compute. reflexivity.
  - lia.
  - lia.
  - exists pix. split; [|exact Hall].
    rewrite <- Hy. vm_compute. reflexivity.
Defined.

(** ** The weight replacement of line 101 *)

Lemma fold_left_qmin_le (l : list Q) (x : Q) :
  (fold_left qmin l x <= x)%Q /\ Forall (fun w => (fold_left qmin l x <= w)%Q) l.
Proof.
  revert x. induction l as [|y l IH]; intros x; simpl.
  - split; [apply Qle_refl | constructor].
  - destruct (IH (qmin x y)) as [H1 H2].
    assert (Hx : (qmin x y <= x)%Q /\ (qmin x y <= y)%Q).
    { unfold qmin. destruct (Qle_bool x y) eqn:E.
      - apply Qle_bool_iff in E. split; [apply Qle_refl | exact E].
      - apply Qle_bool_false in E. split; [apply Qlt_le_weak, E | apply Qle_refl]. }
    split; [eapply Qle_trans; [exact H1 | apply Hx]|].
    constructor; [eapply Qle_trans; [exact H1 | apply Hx] | exact H2].
Qed.

Lemma np_min_le (l : list Q) (m : Q) :
  np_min l = Ok m -> Forall (fun w => (m <= w)%Q) l.
Proof.
  destruct l as [|x l]; [discriminate|]. intros [= <-].
  destruct (fold_left_qmin_le l x). by constructor.
Qed.

(** What line 101 does: positive weights are kept, and a non-positive
    weight is replaced by the minimum of the array, which is then itself
    non-positive.  No weight changes sign. *)
Lemma replace_nonpositive_keeps_sign (lam0 lam' : list Q) :
  replace_nonpositive lam0 = Ok lam' ->
  Forall2 (fun w w' => ((0 < w)%Q -> w' = w) /\ ((w <= 0)%Q -> (w' <= 0)%Q))
    lam0 lam'.
Proof.
  unfold replace_nonpositive. intros H. res_inv H. subst lam'.
  pose proof (np_min_le _ _ Ha) as Hmin.
  apply Forall2_fmap_r, Forall_Forall2_diag.
  eapply Forall_impl; [exact Hmin|]. intros w Hw. simpl.
  destruct (Qle_bool w 0) eqn:E.
  - apply Qle_bool_iff in E. split.
    + intros Hpos. exfalso. exact (Qlt_not_le _ _ Hpos E).
    + intros _. eapply Qle_trans; eassumption.
  - apply Qle_bool_false in E. split; [reflexivity|].
    intros Hle. exfalso. exact (Qlt_not_le _ _ E Hle).
Qed.

(** C1 (defect of the code).  On the 10 x 10 frame with a 3 x 3 footprint of
    weights [1, -1, 2, ...] whose patch mask matches the footprint,
    [refine_masks] adopts the footprint and returns the weights unchanged:
    the weight [-1] is still there, because [lam0.min()] is the minimum of
    all weights and not of the positive ones. *)
Theorem refine_masks_keeps_nonpositive_weight :
  refine_masks square_window label_ious (constant_detect block_patch_mask)
    [block_stat] [blank_patch] [(5, 5)] 12%Q 10 10
  = Ok [<["anatomical" := PBool true]> block_stat] /\
  block_stat !! "lam" = Some (PFloats [1; -1; 2; 3; 4; 5; 6; 7; 8]%Q) /\
  (<["anatomical" := PBool true]> block_stat) !! "lam"
  = Some (PFloats [1; -1; 2; 3; 4; 5; 6; 7; 8]%Q) /\
  replace_nonpositive [1; -1; 2]%Q = Ok [1; -1; 2]%Q.
Proof.
  split; [vm_compute; reflexivity|].
  split; [reflexivity|]. split; [reflexivity|].
  vm_compute. reflexivity.
Qed.

(** ** Bounding boxes of labels *)

Lemma list_min_spec (x : Z) (l : list Z) :
  list_min x l <= x /\ Forall (fun v => list_min x l <= v) l /\
  forall lb, lb <= x -> Forall (fun v => lb <= v) l -> lb <= list_min x l.
Proof.
  unfold list_min. revert x. induction l as [|y l IH]; intros x; simpl.
  - split; [lia|]. split; [constructor | auto].
  - destruct (IH (Z.min x y)) as (H1 & H2 & H3). split; [lia|]. split.
    + constructor; [lia | exact H2].
    + intros lb Hx Hall. inversion Hall; subst. apply H3; [lia | assumption].
Qed.

Lemma list_max_spec (x : Z) (l : list Z) :
  x <= list_max x l /\ Forall (fun v => v <= list_max x l) l.
Proof.
  unfold list_max. revert x. induction l as [|y l IH]; intros x; simpl.
  - split; [lia | constructor].
  - destruct (IH (Z.max x y)) as (H1 & H2). split; [lia|].
    constructor; [lia | exact H2].
Qed.

Lemma nonzero_nonneg (b : array2 bool) (y x : Z) :
  (y, x) ∈ nonzero b -> 0 <= y /\ 0 <= x.
Proof. rewrite elem_of_nonzero. tauto. Qed.

(** The box of a present label holds every pixel of the label and starts
    at non-negative coordinates. *)
Lemma bounding_box_Some (k : Z) (m : array2 Z) (r0 r1 c0 c1 : Z) :
  bounding_box k m = Some (r0, r1, c0, c1) ->
  0 <= r0 /\ 0 <= c0 /\
  nonzero (eq_scalar k m) <> [] /\
  forall y x, (y, x) ∈ nonzero (eq_scalar k m) ->
              r0 <= y < r1 /\ c0 <= x < c1.
Proof.
  unfold bounding_box.
  destruct (nonzero (eq_scalar k m)) as [|[y0 x0] pix] eqn:E; [discriminate|].
  intros [= <- <- <- <-].
  assert (Hnn : Forall (fun p : Z * Z => 0 <= p.1 /\ 0 <= p.2)
                  ((y0, x0) :: pix)).
  { apply Forall_forall. intros [y x] Hin. rewrite <- E in Hin.
    by apply nonzero_nonneg in Hin. }
  inversion Hnn as [|? ? [Hy0 Hx0] Hpix]; subst. simpl in *.
  destruct (list_min_spec y0 pix.*1) as (Hy1 & Hy2 & Hy3).
  destruct (list_min_spec x0 pix.*2) as (Hx1 & Hx2 & Hx3).
  destruct (list_max_spec y0 pix.*1) as (Hy4 & Hy5).
  destruct (list_max_spec x0 pix.*2) as (Hx4 & Hx5).
  split.
  { apply Hy3; [lia|]. apply Forall_fmap.
    eapply Forall_impl; [exact Hpix|]. simpl. tauto. }
  split.
  { apply Hx3; [lia|]. apply Forall_fmap.
    eapply Forall_impl; [exact Hpix|]. simpl. tauto. }
  split; [discriminate|].
  intros y x Hin. apply elem_of_cons in Hin as [[= -> ->] | Hin]; [lia|].
  rewrite Forall_fmap, Forall_forall in Hy2, Hx2, Hy5, Hx5.
  specialize (Hy2 _ Hin). specialize (Hx2 _ Hin).
  specialize (Hy5 _ Hin). specialize (Hx5 _ Hin). simpl in *. lia.
Qed.

Lemma bounding_box_None (k : Z) (m : array2 Z) :
  bounding_box k m = None <-> nonzero (eq_scalar k m) = [].
Proof.
  unfold bounding_box. destruct (nonzero (eq_scalar k m)) as [|[y x] pix].
  - tauto.
  - split; discriminate.
Qed.

Lemma slice2_lookup_inv {A} (r0 r1 c0 c1 : Z) (m : array2 A) (y x : Z)
    (row : list A) (v : A) :
  0 <= r0 <= y -> y < r1 -> 0 <= c0 <= x -> x < c1 ->
  m !! Z.to_nat y = Some row -> row !! Z.to_nat x = Some v ->
  exists row', slice2 r0 r1 c0 c1 m !! Z.to_nat (y - r0) = Some row' /\
               row' !! Z.to_nat (x - c0) = Some v.
Proof.
  intros Hr0 Hr1 Hc0 Hc1 Hrow Hv.
  pose proof (lookup_lt_Some _ _ _ Hrow) as Hylt.
  pose proof (lookup_lt_Some _ _ _ Hv) as Hxlt.
  unfold slice2. rewrite list_lookup_fmap.
  erewrite py_slice_lookup_inv; [| |].
  - simpl. eexists. split; [reflexivity|].
    apply py_slice_lookup_inv.
    + rewrite slice_bound_nonneg by lia.
      replace (Z.to_nat (Z.min c0 (Z.of_nat (length row))) + Z.to_nat (x - c0))%nat
        with (Z.to_nat x) by lia.
      exact Hv.
    + rewrite !slice_bound_nonneg by lia. lia.
  - rewrite slice_bound_nonneg by lia.
    replace (Z.to_nat (Z.min r0 (Z.of_nat (length m))) + Z.to_nat (y - r0))%nat
      with (Z.to_nat y) by lia.
    exact Hrow.
  - rewrite !slice_bound_nonneg by lia. lia.
Qed.

(** A pixel of the crop to a box, moved by the corner of the box, is a
    pixel of the label in the whole mask. *)
Lemma nonzero_crop_to_mask (k r0 r1 c0 c1 : Z) (m : array2 Z) (y x : Z) :
  0 <= r0 -> 0 <= c0 ->
  (y, x) ∈ nonzero (eq_scalar k (slice2 r0 r1 c0 c1 m)) ->
  (y + r0, x + c0) ∈ nonzero (eq_scalar k m).
Proof.
  intros Hr0 Hc0 H.
  apply nonzero_eq_scalar in H as (Hy & Hx & row & Hrow & Hk).
  destruct (slice2_lookup _ _ _ _ _ _ _ _ _ Hrow Hk)
    as (row' & Hrow' & _ & Hk' & _).
  pose proof (lookup_lt_Some _ _ _ Hrow') as Hylt.
  pose proof (lookup_lt_Some _ _ _ Hk') as Hxlt.
  rewrite slice_bound_nonneg in Hrow', Hk', Hylt, Hxlt by lia.
  apply nonzero_eq_scalar. split; [lia|]. split; [lia|]. exists row'.
  replace (Z.to_nat (y + r0))
    with (Z.to_nat (Z.min r0 (Z.of_nat (length m))) + Z.to_nat y)%nat by lia.
  split; [exact Hrow'|].
  replace (Z.to_nat (x + c0))
    with (Z.to_nat (Z.min c0 (Z.of_nat (length row'))) + Z.to_nat x)%nat
    by lia.
  exact Hk'.
Qed.

(** The crop of a mask to the box of a present label contains a pixel of
    the label. *)
Lemma bounding_box_crop_nonempty (k : Z) (m : array2 Z) (r0 r1 c0 c1 : Z) :
  bounding_box k m = Some (r0, r1, c0, c1) ->
  nonzero (eq_scalar k (slice2 r0 r1 c0 c1 m)) <> [].
Proof.
  intros Hbox. destruct (bounding_box_Some _ _ _ _ _ _ Hbox)
    as (Hr0 & Hc0 & Hne & Hin).
  destruct (nonzero (eq_scalar k m)) as [|[y x] pix] eqn:E; [congruence|].
  assert (Hp : (y, x) ∈ nonzero (eq_scalar k m)) by (rewrite E; left).
  destruct (Hin y x ltac:(left)) as [Hy Hx].
  apply nonzero_eq_scalar in Hp as (_ & _ & row & Hrow & Hk).
  destruct (slice2_lookup_inv r0 r1 c0 c1 m y x row k) as (row' & H1 & H2);
    try lia; try assumption.
  intros Hnil.
  assert (Hel : (y - r0, x - c0) ∈
                nonzero (eq_scalar k (slice2 r0 r1 c0 c1 m))).
  { apply nonzero_eq_scalar. split; [lia|]. split; [lia|]. eauto. }
  rewrite Hnil in Hel. inversion Hel.
Qed.

(** ** [mask_centers] *)

Lemma enumerate_snoc {A} (l : list A) (a : A) :
  enumerate (l ++ [a]) = enumerate l ++ [(Z.of_nat (length l), a)].
Proof.
  unfold enumerate. rewrite imap_app. simpl.
  by rewrite Nat.add_0_r.
Qed.

Lemma length_enumerate {A} (l : list A) : length (enumerate l) = length l.
Proof. unfold enumerate. apply length_imap. Qed.

Lemma amax_find_objects (m : array2 Z) (K : Z) :
  amax m = Ok K ->
  find_objects m = Ok ((fun k => bounding_box k m) <$> seqZ 1 K).
Proof. unfold find_objects. intros ->. reflexivity. Qed.

Section MaskCentersProps.
Variable mask_stats : array2 bool -> res (Z * Z * Q).
Variable masks : array2 Z.

(** [utils.mask_stats] returns on every mask that has a pixel. *)
Hypothesis mask_stats_total :
  forall b, nonzero b <> [] -> exists r, mask_stats b = Ok r.

Lemma mask_centers_loop_app acc e1 e2 :
  mask_centers_loop mask_stats masks acc (e1 ++ e2)
  = mask_centers_loop mask_stats masks acc e1
      ≫= fun acc' => mask_centers_loop mask_stats masks acc' e2.
Proof.
  revert acc. induction e1 as [|e e1 IH]; intros acc; simpl; [reflexivity|].
  destruct (mask_centers_step mask_stats masks acc e); simpl; auto.
Qed.

Lemma mask_centers_loop_spec (slices : list (option (Z * Z * Z * Z)))
    (centers : array2 Z) (diams : list Q) :
  (forall (j : nat) box, slices !! j = Some (Some box) ->
     bounding_box (Z.of_nat j + 1) masks = Some box) ->
  (length slices <= length centers)%nat ->
  (length slices <= length diams)%nat ->
  exists centers' diams',
    mask_centers_loop mask_stats masks (centers, diams) (enumerate slices)
      = Ok (centers', diams') /\
    length centers' = length centers /\ length diams' = length diams /\
    (forall (j : nat) si, slices !! j = Some si ->
       entry_for mask_stats masks j si (centers !! j) (diams !! j)
         (centers' !! j) (diams' !! j)) /\
    (forall j : nat, (length slices <= j)%nat ->
       centers' !! j = centers !! j /\ diams' !! j = diams !! j).
Proof.
  induction slices as [|si slices IH] using rev_ind; intros Hbox Hc Hd.
  - exists centers, diams. simpl. repeat split; auto. intros j si H.
    discriminate.
  - rewrite length_app in Hc, Hd. simpl in Hc, Hd.
    destruct IH as (c1 & d1 & Hloop & Hlc & Hld & Hin & Hout);
      [ intros j box Hj; apply Hbox; by apply lookup_app_l_Some
      | lia | lia |].
    rewrite enumerate_snoc, mask_centers_loop_app, Hloop. simpl.
    destruct (Hout (length slices) ltac:(lia)) as [Hc1 Hd1].
    destruct si as [[[[r0 r1] c0] c1']|].
    + assert (Hb : bounding_box (Z.of_nat (length slices) + 1) masks
                   = Some (r0, r1, c0, c1')).
      { apply Hbox. rewrite lookup_app_r by lia.
        by rewrite Nat.sub_diag. }
      destruct (mask_stats_total _ (bounding_box_crop_nonempty _ _ _ _ _ _ Hb))
        as ([[ymed xmed] d] & Hst).
      rewrite Hst. simpl. rewrite Nat2Z.id.
      eexists _, _. split; [reflexivity|].
      rewrite !length_insert. split; [lia|]. split; [lia|]. split.
      * intros j sj Hj.
        apply lookup_snoc_Some in Hj as [[Hlt Hj] | [-> <-]].
        -- rewrite !list_lookup_insert_ne by lia. by apply Hin.
        -- simpl. exists ymed, xmed, d. split; [exact Hst|].
           rewrite !list_lookup_insert_eq by lia. auto.
      * intros j Hj. rewrite length_app in Hj. simpl in Hj.
        rewrite !list_lookup_insert_ne by lia. apply Hout. lia.
    + eexists _, _. split; [reflexivity|]. split; [lia|]. split; [lia|].
      split.
      * intros j sj Hj.
        apply lookup_snoc_Some in Hj as [[Hlt Hj] | [-> <-]].
        -- by apply Hin.
        -- simpl. auto.
      * intros j Hj. rewrite length_app in Hj. simpl in Hj.
        apply Hout. lia.
Qed.

(** C7.  For a label mask with at least one pixel and no negative
    maximum, [mask_centers] returns: [centers] has one row of two entries
    and [diams] one entry per id [1 .. max]; the entry of an id without
    pixels is the zero centre and the zero diameter, the entry of an id
    with pixels is what [utils.mask_stats] gives for its crop.
    [utils.mask_stats] is never called on a mask without pixels. *)
Theorem mask_centers_one_entry_per_id (K : Z) :
  amax masks = Ok K -> 0 <= K ->
  exists centers diams,
    mask_centers mask_stats masks = Ok (centers, diams) /\
    Z.of_nat (length centers) = K /\ Z.of_nat (length diams) = K /\
    forall id, 1 <= id <= K ->
      (nonzero (eq_scalar id masks) = [] ->
         centers !! Z.to_nat (id - 1) = Some [0; 0] /\
         diams !! Z.to_nat (id - 1) = Some 0%Q) /\
      (forall r0 r1 c0 c1,
         bounding_box id masks = Some (r0, r1, c0, c1) ->
         exists ymed xmed d,
           mask_stats (eq_scalar id (slice2 r0 r1 c0 c1 masks))
             = Ok (ymed, xmed, d) /\
           centers !! Z.to_nat (id - 1) = Some [ymed; xmed] /\
           diams !! Z.to_nat (id - 1) = Some d).
Proof.
  intros Hmax HK. unfold mask_centers.
  rewrite Hmax, (amax_find_objects _ _ Hmax). simpl.
  unfold np_zeros. replace (K <? 0) with false by lia. simpl.
  set (slices := (fun k => bounding_box k masks) <$> seqZ 1 K).
  assert (Hlen : length slices = Z.to_nat K).
  { unfold slices. by rewrite length_fmap, length_seqZ. }
  assert (Hslice : forall j : nat, (j < Z.to_nat K)%nat ->
            slices !! j = Some (bounding_box (Z.of_nat j + 1) masks)).
  { intros j Hj. unfold slices. rewrite list_lookup_fmap.
    rewrite (lookup_seqZ_lt 1 K j) by lia. simpl. f_equal. f_equal. lia. }
  destruct (mask_centers_loop_spec slices
              (replicate (Z.to_nat K) (replicate (Z.to_nat 2) 0))
              (replicate (Z.to_nat K) 0%Q))
    as (centers & diams & Hloop & Hlc & Hld & Hin & _).
  { intros j box Hj. pose proof (lookup_lt_Some _ _ _ Hj) as Hlt.
    rewrite Hslice in Hj by lia. by injection Hj. }
  { rewrite length_replicate. lia. }
  { rewrite length_replicate. lia. }
  exists centers, diams. split; [exact Hloop|].
  rewrite length_replicate in Hlc. rewrite length_replicate in Hld.
  split; [lia|]. split; [lia|].
  intros id Hid.
  specialize (Hin (Z.to_nat (id - 1)) _
                (Hslice (Z.to_nat (id - 1)) ltac:(lia))).
  unfold entry_for in Hin.
  replace (Z.of_nat (Z.to_nat (id - 1)) + 1) with id in Hin by lia.
  rewrite !lookup_replicate_2 in Hin by lia.
  split.
  - intros Hnil. apply bounding_box_None in Hnil. rewrite Hnil in Hin.
    exact Hin.
  - intros r0 r1 c0 c1 Hbox. rewrite Hbox in Hin. exact Hin.
Qed.
End MaskCentersProps.

Lemma pixel_stats_total (b : array2 bool) :
  nonzero b <> [] -> exists r, pixel_stats b = Ok r.
Proof.
  unfold pixel_stats. destruct (nonzero b); [congruence | eauto].
Qed.

Lemma mask_centers_one_entry_per_id_witness :
  exists centers diams,
    mask_centers pixel_stats gap_mask = Ok (centers, diams) /\
    Z.of_nat (length centers) = 3 /\ Z.of_nat (length diams) = 3 /\
    centers !! 1%nat = Some [0; 0] /\ diams !! 1%nat = Some 0%Q.
Proof.
  destruct (mask_centers_one_entry_per_id pixel_stats gap_mask
              pixel_stats_total 3 eq_refl ltac:(lia))
    as (centers & diams & Hrun & Hlc & Hld & Hid).
  exists centers, diams. split; [exact Hrun|]. split; [exact Hlc|].
  split; [exact Hld|].
  exact (proj1 (Hid 2 ltac:(lia)) eq_refl).
Defined.

(** ** [masks_to_stats] *)

Lemma argmin_from_spec (l : list Q) (best : Q) (ibest i : Z) (pre : list Q) :
  Z.of_nat (length pre) = i -> 0 <= ibest < i ->
  pre !! Z.to_nat ibest = Some best ->
  Forall (fun w => (best <= w)%Q) pre ->
  let r := argmin_from best ibest i l in
  0 <= r < i + Z.of_nat (length l) /\
  exists v, (pre ++ l) !! Z.to_nat r = Some v /\
            Forall (fun w => (v <= w)%Q) (pre ++ l).
Proof.
  revert best ibest i pre.
  induction l as [|x l IH]; intros best ibest i pre Hlen Hib Hbest Hall; simpl.
  - rewrite app_nil_r. split; [lia|]. eauto.
  - assert (Hlen' : Z.of_nat (length (pre ++ [x])) = i + 1).
    { rewrite length_app. simpl. lia. }
    replace (pre ++ x :: l) with ((pre ++ [x]) ++ l)
      by (by rewrite <- app_assoc).
    replace (i + Z.of_nat (S (length l))) with (i + 1 + Z.of_nat (length l))
      by lia.
    destruct (Qle_bool best x) eqn:E.
    + apply Qle_bool_iff in E. apply IH; try assumption; try lia.
      * rewrite lookup_app_l by lia. exact Hbest.
      * apply Forall_app. split; [exact Hall|]. by constructor.
    + apply Qle_bool_false in E. apply IH; try assumption; try lia.
      * rewrite lookup_app_r by lia.
        replace (Z.to_nat i - length pre)%nat with 0%nat by lia. reflexivity.
      * apply Forall_app. split.
        -- eapply Forall_impl; [exact Hall|]. intros w Hw. simpl in Hw.
           eapply Qle_trans; [apply Qlt_le_weak, E | exact Hw].
        -- constructor; [apply Qle_refl | constructor].
Qed.

(** [np.argmin] returns a position of the array whose entry is below all
    entries. *)
Lemma np_argmin_spec (l : list Q) (i : Z) :
  np_argmin l = Ok i ->
  0 <= i < Z.of_nat (length l) /\
  exists v, l !! Z.to_nat i = Some v /\ Forall (fun w => (v <= w)%Q) l.
Proof.
  destruct l as [|x l]; [discriminate|]. intros [= <-].
  destruct (argmin_from_spec l x 0 1 [x]) as [H1 H2]; simpl; try lia;
    try reflexivity.
  - constructor; [apply Qle_refl | constructor].
  - simpl in *. split; [lia | exact H2].
Qed.

Lemma py_index_nonneg {A} (l : list A) (i : Z) (v : A) :
  0 <= i -> py_index l i = Ok v -> l !! Z.to_nat i = Some v.
Proof.
  unfold py_index. intros Hi. replace (i <? 0) with false by lia.
  destruct ((0 <=? i) && (i <? Z.of_nat (length l))); [|discriminate].
  destruct (l !! Z.to_nat i); [|discriminate]. by intros [= ->].
Qed.

(** What the body of the loop of [masks_to_stats] stores for a region. *)
Lemma region_stat_spec (masks : array2 Z) (weights : array2 Q) (i : Z)
    (box : Z * Z * Z * Z) (st : stat) :
  bounding_box (i + 1) masks = Some box ->
  region_stat masks weights (i, Some box) = Ok st ->
  exists (pix : list (Z * Z)) (ymed xmed : Z),
    st !! "ypix" = Some (PInts pix.*1) /\
    st !! "xpix" = Some (PInts pix.*2) /\
    st !! "med" = Some (PIntList [ymed; xmed]) /\
    pix <> [] /\
    (forall p, p ∈ pix -> p ∈ nonzero (eq_scalar (i + 1) masks)) /\
    (ymed, xmed) ∈ pix /\
    let ymedian := np_median (inject_Z <$> pix.*1) in
    let xmedian := np_median (inject_Z <$> pix.*2) in
    forall p, p ∈ pix ->
      (sq_dist xmedian ymedian xmed ymed
       <= sq_dist xmedian ymedian p.2 p.1)%Q.
Proof.
  destruct box as [[[r0 r1] c0] c1]. intros Hbox H.
  destruct (bounding_box_Some _ _ _ _ _ _ Hbox) as (Hr0 & Hc0 & _ & _).
  pose proof (bounding_box_crop_nonempty _ _ _ _ _ _ Hbox) as Hne.
  unfold region_stat in H.
  set (crop := nonzero (eq_scalar (i + 1) (slice2 r0 r1 c0 c1 masks))) in *.
  set (pix := (fun p : Z * Z => (p.1 + r0, p.2 + c0)) <$> crop).
  assert (Hy : (fun y => y + r0) <$> crop.*1 = pix.*1).
  { unfold pix. rewrite <- !list_fmap_compose. by apply list_fmap_ext. }
  assert (Hx : (fun x => x + c0) <$> crop.*2 = pix.*2).
  { unfold pix. rewrite <- !list_fmap_compose. by apply list_fmap_ext. }
  rewrite Hy, Hx in H. res_inv H. subst st.
  rename a into imin, a0 into xmed, a1 into ymed, a2 into lam.
  apply np_argmin_spec in Ha as (Himin & v & Hv & Hmin).
  apply py_index_nonneg in Ha0; [|lia]. apply py_index_nonneg in Ha1; [|lia].
  rewrite list_lookup_fmap in Ha0, Ha1.
  destruct (pix !! Z.to_nat imin) as [[y x]|] eqn:Ep; [|discriminate].
  simpl in Ha0, Ha1. injection Ha0 as <-. injection Ha1 as <-.
  exists pix, y, x.
  split; [dict_lookup|]. split; [dict_lookup|]. split; [dict_lookup|].
  split; [unfold pix; by destruct crop|].
  split.
  { intros [py px] Hp. unfold pix in Hp.
    apply list_elem_of_fmap in Hp as ([cy cx] & [= -> ->] & Hc).
    simpl. by apply (nonzero_crop_to_mask (i + 1) r0 r1 c0 c1 masks). }
  split; [by eapply list_elem_of_lookup_2|].
  simpl. intros p Hp.
  rewrite lookup_zip_with in Hv. rewrite !list_lookup_fmap, Ep in Hv.
  simpl in Hv. injection Hv as <-.
  rewrite Forall_forall in Hmin. apply Hmin.
  apply list_elem_of_lookup in Hp as [n Hn].
  apply list_elem_of_lookup. exists n.
  rewrite lookup_zip_with, !list_lookup_fmap, Hn. reflexivity.
Qed.

(** C10.  Every record returned by [masks_to_stats] has a ["med"] that is
    one of the pixels of its region (a pixel stored in [ypix], [xpix] that
    carries the label of the region in the mask), and among those pixels
    one of least squared distance to the coordinate-wise median. *)
Theorem masks_to_stats_med_is_member (masks : array2 Z) (weights : array2 Q)
    (stats : list stat) (j : nat) (st : stat) :
  masks_to_stats masks weights = Ok stats ->
  stats !! j = Some st ->
  exists (pix : list (Z * Z)) (ymed xmed : Z),
    st !! "ypix" = Some (PInts pix.*1) /\
    st !! "xpix" = Some (PInts pix.*2) /\
    st !! "med" = Some (PIntList [ymed; xmed]) /\
    (forall p, p ∈ pix -> p ∈ nonzero (eq_scalar (Z.of_nat j + 1) masks)) /\
    (ymed, xmed) ∈ pix /\
    forall p, p ∈ pix ->
      (sq_dist (np_median (inject_Z <$> pix.*2))
               (np_median (inject_Z <$> pix.*1)) xmed ymed
       <= sq_dist (np_median (inject_Z <$> pix.*2))
                  (np_median (inject_Z <$> pix.*1)) p.2 p.1)%Q.
Proof.
  unfold masks_to_stats. intros H Hj. res_inv H.
  unfold find_objects in Ha. res_inv Ha. subst a.
  apply mapM_res_Ok in H.
  destruct (Forall2_lookup_r _ _ _ _ _ H Hj) as ([i si] & Hentry & Hst).
  unfold enumerate in Hentry. rewrite list_lookup_imap in Hentry.
  rewrite list_lookup_fmap in Hentry.
  destruct (seqZ 1 a0 !! j) as [k|] eqn:Ek; [|discriminate].
  simpl in Hentry. injection Hentry as <- <-.
  apply lookup_seqZ in Ek as [-> Hlt].
  replace (1 + Z.of_nat j) with (Z.of_nat j + 1) in Hst by lia.
  destruct (bounding_box (Z.of_nat j + 1) masks) as [box|] eqn:Ebox;
    [|discriminate].
  destruct (region_stat_spec _ _ _ _ _ Ebox Hst)
    as (pix & ymed & xmed & H1 & H2 & H3 & _ & H5 & H6 & H7).
  exists pix, ymed, xmed. auto 10.
Qed.

(** The records of [ring_mask]. *)
Lemma masks_to_stats_ring :
  masks_to_stats ring_mask unit_weights = Ok [ring_stat; corner_stat].
Proof. vm_compute. reflexivity. Qed.

Lemma masks_to_stats_med_is_member_witness :
  exists (pix : list (Z * Z)) (ymed xmed : Z),
    ring_stat !! "ypix" = Some (PInts pix.*1) /\
    ring_stat !! "xpix" = Some (PInts pix.*2) /\
    ring_stat !! "med" = Some (PIntList [ymed; xmed]) /\
    (ymed, xmed) ∈ pix.
Proof.
  destruct (masks_to_stats_med_is_member ring_mask unit_weights
              [ring_stat; corner_stat] 0%nat ring_stat
              masks_to_stats_ring eq_refl)
    as (pix & ymed & xmed & Hy & Hx & Hmed & _ & Hin & _).
  exists pix, ymed, xmed. auto.
Defined.

(** On [ring_mask] the coordinate-wise median of region 1 is (1, 1), which
    is not a pixel of the region; the stored ["med"] is the pixel (0, 1). *)
Lemma ring_median_is_not_a_pixel :
  Qeq (np_median (inject_Z <$> [0; 0; 0; 1; 1; 2; 2; 2])) 1%Q /\
  Qeq (np_median (inject_Z <$> [0; 1; 2; 0; 2; 0; 1; 2])) 1%Q /\
  ((1, 1) ∉ nonzero (eq_scalar 1 ring_mask)) /\
  ring_stat !! "med" = Some (PIntList [0; 1]).
Proof.
  split; [reflexivity|]. split; [reflexivity|]. split; [|reflexivity].
  rewrite nonzero_eq_scalar. intros (_ & _ & row & Hrow & H).
  injection Hrow as <-. discriminate H.
Qed.

(** ** Canonical label ids *)

Lemma elem_of_uinsert (x y : Z) (l : list Z) :
  y ∈ uinsert x l <-> y = x \/ y ∈ l.
Proof.
  induction l as [|z l IH]; simpl.
  - rewrite list_elem_of_singleton, elem_of_nil. tauto.
  - destruct (x <? z) eqn:E1; [by rewrite elem_of_cons|].
    destruct (x =? z) eqn:E2.
    + apply Z.eqb_eq in E2 as ->. rewrite elem_of_cons. tauto.
    + rewrite !elem_of_cons, IH. tauto.
Qed.

Lemma uinsert_sorted (x : Z) (l : list Z) :
  StronglySorted Z.lt l -> StronglySorted Z.lt (uinsert x l).
Proof.
  induction l as [|z l IH]; intros Hs; simpl.
  - repeat constructor.
  - inversion Hs as [|? ? Hl Hz]; subst.
    destruct (x <? z) eqn:E1.
    + constructor; [exact Hs|]. constructor; [lia|].
      eapply Forall_impl; [exact Hz|]. simpl. lia.
    + destruct (x =? z) eqn:E2; [exact Hs|].
      constructor; [auto|]. apply Forall_forall. intros y Hy.
      apply elem_of_uinsert in Hy as [-> | Hy]; [lia|].
      rewrite Forall_forall in Hz. by apply Hz.
Qed.

Lemma elem_of_np_unique (l : list Z) (y : Z) : y ∈ np_unique l <-> y ∈ l.
Proof.
  unfold np_unique. induction l as [|x l IH]; simpl; [reflexivity|].
  rewrite elem_of_uinsert, IH, elem_of_cons. reflexivity.
Qed.

(** [np.unique] returns a strictly increasing array. *)
Lemma np_unique_sorted (l : list Z) : StronglySorted Z.lt (np_unique l).
Proof.
  unfold np_unique. induction l as [|x l IH]; simpl; [constructor|].
  by apply uinsert_sorted.
Qed.

Lemma strictly_sorted_NoDup (l : list Z) : StronglySorted Z.lt l -> NoDup l.
Proof.
  induction 1 as [|x l Hl IH Hx]; constructor; auto.
  intros Hin. rewrite Forall_forall in Hx. specialize (Hx _ Hin). lia.
Qed.

(** A strictly increasing list is determined by its elements. *)
Lemma strictly_sorted_ext (l1 l2 : list Z) :
  StronglySorted Z.lt l1 -> StronglySorted Z.lt l2 ->
  (forall v, v ∈ l1 <-> v ∈ l2) -> l1 = l2.
Proof.
  intros H1 H2 Hiff.
  apply (StronglySorted_unique_strong Z.lt); try assumption.
  - intros. lia.
  - apply NoDup_Permutation; auto using strictly_sorted_NoDup.
Qed.

Lemma seqZ_sorted (n : nat) (a : Z) :
  StronglySorted Z.lt (seqZ a (Z.of_nat n)).
Proof.
  revert a. induction n as [|n IH]; intros a.
  - constructor.
  - rewrite seqZ_cons by lia.
    replace (Z.pred (Z.of_nat (S n))) with (Z.of_nat n) by lia.
    constructor; [apply IH|]. apply Forall_forall. intros v Hv.
    apply elem_of_seqZ in Hv. lia.
Qed.

Lemma index_in_seqZ (n : nat) (a v : Z) :
  a <= v < a + Z.of_nat n -> index_in v (seqZ a (Z.of_nat n)) = v - a.
Proof.
  revert a. induction n as [|n IH]; intros a Hv; [lia|].
  rewrite seqZ_cons by lia.
  replace (Z.pred (Z.of_nat (S n))) with (Z.of_nat n) by lia. simpl.
  destruct (v =? a) eqn:E; [lia|]. rewrite IH by lia. lia.
Qed.

(** When the values of an array are exactly [0 .. K], the inverse index of
    [np.unique] is the array itself. *)
Lemma unique_inverse_contiguous (flat : list Z) (K : Z) :
  (forall v, v ∈ flat <-> 0 <= v <= K) -> unique_inverse flat = flat.
Proof.
  intros Hvals. unfold unique_inverse.
  assert (Hu : np_unique flat = seqZ 0 (Z.of_nat (Z.to_nat (K + 1)))).
  { apply strictly_sorted_ext; auto using np_unique_sorted, seqZ_sorted.
    intros v. rewrite elem_of_np_unique, Hvals, elem_of_seqZ. lia. }
  rewrite Hu. rewrite <- (list_fmap_id flat) at 2.
  apply Forall_fmap_ext_1, Forall_forall. intros v Hv. apply Hvals in Hv.
  rewrite index_in_seqZ by lia. simpl. lia.
Qed.

Lemma to_int32_small (v : Z) : - 2 ^ 31 <= v < 2 ^ 31 -> to_int32 v = v.
Proof. unfold to_int32. intros H. rewrite Z.mod_small; lia. Qed.

Lemma has_shape_cons {A} (row : list A) (m : array2 A) (h w : Z) :
  has_shape (row :: m) h w <->
  Z.of_nat (length row) = w /\ has_shape m (h - 1) w.
Proof.
  unfold has_shape. simpl. rewrite Forall_cons. split.
  - intros (Hh & Hr & Hm). split; [exact Hr|]. split; [lia | exact Hm].
  - intros (Hr & Hh & Hm). split; [lia|]. split; assumption.
Qed.

Lemma length_concat_shape {A} (m : array2 A) (h w : Z) :
  has_shape m h w -> Z.of_nat (length (concat m)) = h * w.
Proof.
  revert h. induction m as [|row m IH]; intros h.
  - intros [<- _]. simpl. lia.
  - intros [Hw Hm]%has_shape_cons. simpl. rewrite length_app.
    specialize (IH _ Hm). lia.
Qed.

Lemma chunks_concat {A} (m : array2 A) (w : nat) :
  Forall (fun row => length row = w) m ->
  chunks (length m) w (concat m) = m.
Proof.
  induction 1 as [|row m Hrow Hm IH]; simpl; [reflexivity|].
  rewrite take_app_length' by (symmetry; exact Hrow).
  rewrite drop_app_length' by (symmetry; exact Hrow). by rewrite IH.
Qed.

Lemma chunks_shape {A} (h w : nat) (flat : list A) :
  length flat = (h * w)%nat ->
  has_shape (chunks h w flat) (Z.of_nat h) (Z.of_nat w) /\
  concat (chunks h w flat) = flat.
Proof.
  revert flat. induction h as [|h IH]; intros flat Hlen; simpl.
  - split; [split; [reflexivity | constructor]|].
    by destruct flat.
  - destruct (IH (drop w flat)) as [Hs Hc].
    { rewrite length_drop. lia. }
    split.
    + apply has_shape_cons. split.
      * rewrite length_take. lia.
      * by replace (Z.of_nat (S h) - 1) with (Z.of_nat h) by lia.
    + rewrite Hc. apply take_drop.
Qed.

(** Reshaping the flattened array to its own shape gives the array back. *)
Lemma reshape_concat {A} (m : array2 A) (h w : Z) :
  has_shape m h w -> reshape (shape2 m) (concat m) = Ok m.
Proof.
  intros Hs. pose proof (length_concat_shape _ _ _ Hs) as Hlen.
  destruct Hs as [Hh Hw]. unfold reshape, shape2.
  destruct m as [|row m].
  - simpl. reflexivity.
  - inversion Hw as [|? ? Hrow Hrest]; subst.
    rewrite decide_True by (simpl in *; lia).
    rewrite !Nat2Z.id. f_equal. apply chunks_concat.
    constructor; [reflexivity|].
    eapply Forall_impl; [exact Hrest|]. simpl. lia.
Qed.

Lemma length_unique_inverse (flat : list Z) :
  length (unique_inverse flat) = length flat.
Proof. unfold unique_inverse. apply length_fmap. Qed.

(** C5 (defect of the code).  The mask [[1, 1], [1, 2]] has the contiguous
    ids 1 and 2 and no background pixel.  The relabeling of [roi_detect]
    keeps its shape and returns [[0, 0], [0, 1]]: region 1 has become
    background and region 2 has become region 1. *)
Theorem relabel_without_background :
  relabel full_mask = Ok [[0; 0]; [0; 1]] /\
  has_shape full_mask 2 2 /\
  (forall v, v ∈ concat full_mask <-> 1 <= v <= 2).
Proof.
  split; [reflexivity|]. split.
  - split; [reflexivity|]. repeat constructor.
  - intros v. unfold full_mask. simpl.
    rewrite !elem_of_cons, elem_of_nil. lia.
Qed.

Lemma relabel_flat (m : array2 Z) (h w : Z) :
  has_shape m h w ->
  exists m', relabel m = Ok m' /\ has_shape m' h w /\
             concat m' = unique_inverse (to_int32 <$> concat m).
Proof.
  intros Hs. pose proof (length_concat_shape _ _ _ Hs) as Hlen.
  unfold relabel, reshape, shape2.
  remember (unique_inverse (to_int32 <$> concat m)) as inv eqn:Einv.
  assert (Hinv : length inv = length (concat m)).
  { subst inv. by rewrite length_unique_inverse, length_fmap. }
  clear Einv. destruct m as [|row m].
  - simpl in Hinv. destruct inv; [|discriminate Hinv].
    exists []. rewrite decide_True by reflexivity. simpl. auto.
  - destruct Hs as [Hh Hw]. inversion Hw as [|? ? Hrow Hrest]; subst.
    rewrite decide_True by (rewrite Hinv; exact Hlen).
    destruct (chunks_shape (length (row :: m)) (length row) inv) as [H1 H2].
    { rewrite Hinv. apply Nat2Z.inj. rewrite Hlen.
      by rewrite Nat2Z.inj_mul. }
    rewrite !Nat2Z.id. eexists. split; [reflexivity|]. split; assumption.
Qed.

Lemma relabel_fixed_point (m : array2 Z) (h w K : Z) :
  has_shape m h w ->
  (forall v, v ∈ concat m <-> 0 <= v <= K) -> K < 2 ^ 31 ->
  relabel m = Ok m.
Proof.
  intros Hs Hvals HK. unfold relabel.
  assert (Hcast : to_int32 <$> concat m = concat m).
  { rewrite <- (list_fmap_id (concat m)) at 2.
    apply Forall_fmap_ext_1, Forall_forall. intros v Hv. apply Hvals in Hv.
    unfold id. apply to_int32_small.
    change (2 ^ 31) with 2147483648 in *. lia. }
  rewrite Hcast, (unique_inverse_contiguous _ K Hvals).
  by eapply reshape_concat.
Qed.

Lemma index_in_lookup (u : list Z) (x : Z) :
  x ∈ u ->
  0 <= index_in x u < Z.of_nat (length u) /\
  u !! Z.to_nat (index_in x u) = Some x.
Proof.
  induction u as [|y u IH]; intros Hin; [inversion Hin|]. simpl.
  destruct (x =? y) eqn:E.
  - apply Z.eqb_eq in E as ->. split; [lia | reflexivity].
  - apply elem_of_cons in Hin as [-> | Hin]; [lia|].
    destruct (IH Hin) as [H1 H2]. split; [lia|].
    replace (Z.to_nat (1 + index_in x u)) with (S (Z.to_nat (index_in x u)))
      by lia.
    exact H2.
Qed.

Lemma index_in_NoDup (u : list Z) (i : nat) (x : Z) :
  NoDup u -> u !! i = Some x -> index_in x u = Z.of_nat i.
Proof.
  intros Hnd. revert i. induction Hnd as [|y u Hy Hnd IH]; intros i Hi;
    [discriminate|]. simpl.
  destruct i as [|i]; simpl in Hi.
  - injection Hi as ->. by rewrite Z.eqb_refl.
  - destruct (x =? y) eqn:E.
    + apply Z.eqb_eq in E as ->. exfalso. apply Hy.
      by eapply list_elem_of_lookup_2.
    + rewrite (IH _ Hi). lia.
Qed.

(** The values of the inverse index are exactly the positions of the
    unique array: the canonical ids are contiguous from 0. *)
Lemma unique_inverse_values (flat : list Z) (v : Z) :
  v ∈ unique_inverse flat <-> 0 <= v < Z.of_nat (length (np_unique flat)).
Proof.
  unfold unique_inverse. rewrite list_elem_of_fmap. split.
  - intros (x & -> & Hx). apply elem_of_np_unique in Hx.
    by apply index_in_lookup.
  - intros Hv.
    destruct (lookup_lt_is_Some_2 (np_unique flat) (Z.to_nat v) ltac:(lia))
      as [x Hx].
    exists x. split.
    + rewrite (index_in_NoDup _ _ _
                 (strictly_sorted_NoDup _ (np_unique_sorted flat)) Hx). lia.
    + apply elem_of_np_unique. by eapply list_elem_of_lookup_2.
Qed.

Lemma length_np_unique_le (flat : list Z) :
  (length (np_unique flat) <= length flat)%nat.
Proof.
  unfold np_unique. induction flat as [|x flat IH]; simpl; [lia|].
  assert (H : forall l, (length (uinsert x l) <= S (length l))%nat).
  { induction l as [|y l IHl]; simpl; [lia|].
    destruct (x <? y); [simpl; lia|]. destruct (x =? y); simpl; lia. }
  specialize (H (foldr uinsert [] flat)). lia.
Qed.

(** The relabeling of [roi_detect] always returns, keeps the shape of the
    mask, and its ids are contiguous from 0: they are exactly the positions
    [0 .. n-1] of the [n] distinct values of the mask. *)
Theorem relabel_shape_and_ids (m : array2 Z) (h w : Z) :
  has_shape m h w ->
  exists m',
    relabel m = Ok m' /\ has_shape m' h w /\
    forall v, v ∈ concat m' <->
              0 <= v < Z.of_nat (length (np_unique (to_int32 <$> concat m))).
Proof.
  intros Hs. destruct (relabel_flat m h w Hs) as (m' & Hrel & Hs' & Hc).
  exists m'. split; [exact Hrel|]. split; [exact Hs'|].
  intros v. rewrite Hc. apply unique_inverse_values.
Qed.

Lemma relabel_shape_and_ids_witness :
  exists m', relabel [[0; 5]; [7; 5]] = Ok m' /\ has_shape m' 2 2.
Proof.
  destruct (relabel_shape_and_ids [[0; 5]; [7; 5]] 2 2)
    as (m' & Hrel & Hs & _).
  - split; [reflexivity|]. repeat constructor.
  - eauto.
Defined.

(** A mask that has a background pixel and whose ids are [1 .. K], each
    with at least one pixel, is returned unchanged. *)
Theorem relabel_contiguous_with_background (m : array2 Z) (h w K : Z) :
  has_shape m h w ->
  0 ∈ concat m ->
  (forall v, v ∈ concat m -> 0 <= v <= K) ->
  (forall id, 1 <= id <= K -> id ∈ concat m) ->
  K < 2 ^ 31 ->
  relabel m = Ok m.
Proof.
  intros Hs H0 Hrange Hall HK.
  apply (relabel_fixed_point m h w K Hs); [|exact HK].
  intros v. split; [apply Hrange|].
  intros Hv. destruct (decide (v = 0)) as [->|Hne]; [exact H0|].
  apply Hall. lia.
Qed.

Lemma relabel_contiguous_with_background_witness :
  relabel [[0; 1]; [1; 2]] = Ok [[0; 1]; [1; 2]].
Proof.
  apply (relabel_contiguous_with_background _ 2 2 2).
  - split; [reflexivity|]. repeat constructor.
  - simpl. rewrite !elem_of_cons. auto.
  - intros v. simpl. rewrite !elem_of_cons, elem_of_nil. lia.
  - intros v Hv. simpl. rewrite !elem_of_cons. lia.
  - lia.
Defined.

(** The relabeling is idempotent: relabeling its result changes nothing. *)
Theorem relabel_idempotent (m m' : array2 Z) (h w : Z) :
  has_shape m h w -> h * w < 2 ^ 31 ->
  relabel m = Ok m' -> relabel m' = Ok m'.
Proof.
  intros Hs Hsize Hrel.
  destruct (relabel_flat m h w Hs) as (m'' & Hrel' & Hs' & Hc).
  rewrite Hrel in Hrel'. injection Hrel' as <-.
  pose proof (length_concat_shape _ _ _ Hs) as Hlen.
  set (flat := to_int32 <$> concat m) in *.
  apply (relabel_fixed_point m' h w
           (Z.of_nat (length (np_unique flat)) - 1)); [exact Hs'| |].
  - intros v. rewrite Hc, unique_inverse_values. lia.
  - pose proof (length_np_unique_le flat) as Hle.
    unfold flat in Hle at 2. rewrite length_fmap in Hle.
    change (2 ^ 31) with 2147483648 in *. lia.
Qed.

Lemma relabel_idempotent_witness :
  relabel [[0; 0]; [0; 1]] = Ok [[0; 0]; [0; 1]].
Proof.
  apply (relabel_idempotent full_mask _ 2 2).
  - split; [reflexivity|]. repeat constructor.
  - lia.
  - reflexivity.
Defined.

(** ** Computations with a trace *)

Lemma run_bind_Done {A B} (m : run A) (f : A -> run B) tr (b : B) :
  m ≫= f = (tr, Done b) ->
  exists tr1 a tr2,
    m = (tr1, Done a) /\ f a = (tr2, Done b) /\ tr = tr1 ++ tr2.
Proof.
  destruct m as [tr1 [a|e|]]; simpl; try discriminate.
  destruct (f a) as [tr2 o] eqn:E. intros [= <- ->]. eauto 6.
Qed.

Lemma lift_Done {A} (r : res A) tr (a : A) :
  lift r = (tr, Done a) -> r = Ok a /\ tr = [].
Proof. destruct r; simpl; intros [= <- <-] || discriminate. auto. Qed.

Lemma no_eval_app (tr1 tr2 : list event) :
  no_eval (tr1 ++ tr2) <-> no_eval tr1 /\ no_eval tr2.
Proof. apply Forall_app. Qed.

Lemma quiet_lift {A} (r : res A) : quiet (lift r).
Proof. destruct r; split; simpl; (constructor || discriminate). Qed.

Lemma quiet_ret {A} (a : A) : quiet (mret a : run A).
Proof. split; simpl; [constructor | discriminate]. Qed.

Lemma quiet_emit (ev : event) : is_eval ev = false -> quiet (emit ev).
Proof. intros H. split; simpl; [by repeat constructor | discriminate]. Qed.

Lemma quiet_bind {A B} (m : run A) (f : A -> run B) :
  quiet m -> (forall a, quiet (f a)) -> quiet (m ≫= f).
Proof.
  destruct m as [tr [a|e|]]; intros [Htr Hd] Hf; simpl in *.
  - destruct (Hf a) as [H1 H2]. destruct (f a) as [tr' o]. simpl in *.
    split; [by apply no_eval_app | exact H2].
  - split; [exact Htr | discriminate].
  - congruence.
Qed.

Lemma raises_bind_l {A B} (m : run A) (f : A -> run B) :
  raises_quietly m -> raises_quietly (m ≫= f).
Proof.
  destruct m as [tr o]. intros [Htr [e He]]. simpl in *. subst o.
  split; simpl; eauto.
Qed.

Lemma raises_bind_r {A B} (m : run A) (f : A -> run B) :
  quiet m -> (forall tr a, m = (tr, Done a) -> raises_quietly (f a)) ->
  raises_quietly (m ≫= f).
Proof.
  destruct m as [tr [a|e|]]; intros [Htr Hd] Hf; simpl in *.
  - destruct (Hf tr a eq_refl) as [H1 H2]. destruct (f a) as [tr' o].
    simpl in *. split; [by apply no_eval_app | exact H2].
  - split; simpl; eauto.
  - congruence.
Qed.

Lemma raises_lift_Err {A} (e : exn) : raises_quietly (lift (Err e) : run A).
Proof. split; simpl; [constructor | eauto]. Qed.

Section OrchestratorProps.
Context (E : collaborators).

Lemma quiet_projection ops mean_img max_proj :
  quiet (projection E ops mean_img max_proj).
Proof.
  unfold projection. apply quiet_bind; [apply quiet_lift|]. intros mode.
  destruct (eq_num mode 1).
  { apply quiet_bind; [apply quiet_lift | intros; apply quiet_ret]. }
  destruct (eq_num mode 2).
  { apply quiet_bind; [apply quiet_lift | intros; apply quiet_ret]. }
  destruct (eq_num mode 3); [|apply quiet_ret].
  apply quiet_bind.
  - destruct (ops !! "meanImgE") as [enhanced|].
    + repeat (apply quiet_bind; [apply quiet_lift | intros ?]).
      destruct enhanced; (apply quiet_ret || apply quiet_lift).
    + apply quiet_bind; [by apply quiet_emit | intros; apply quiet_ret].
  - intros img.
    apply quiet_bind; [apply quiet_lift | intros; apply quiet_ret].
Qed.

Lemma quiet_spatial_high_pass ops img diameter :
  quiet (spatial_high_pass E ops img diameter).
Proof.
  unfold spatial_high_pass. apply quiet_bind; [apply quiet_lift|].
  intros [|]; [|apply quiet_ret].
  repeat (apply quiet_bind; [apply quiet_lift | intros ?]).
  apply quiet_lift.
Qed.

(** With [diameter=None], [select_rois] raises before it reaches
    [roi_detect], whatever the configuration, the movie and the
    collaborators do: line 239 (or line 236) subscripts [None]. *)
Lemma select_rois_detect_none_raises rd ops mov :
  raises_quietly (select_rois_detect E rd ops mov ONone).
Proof.
  unfold select_rois_detect.
  apply raises_bind_r; [apply quiet_lift | intros _ width _].
  apply raises_bind_r; [apply quiet_lift | intros _ mov' _].
  apply raises_bind_r; [apply quiet_lift | intros _ max_proj _].
  apply raises_bind_r; [apply quiet_projection | intros _ [img weights] _].
  apply raises_bind_r.
  { simpl. split; simpl; [by repeat constructor | discriminate]. }
  intros tr [[img' rescale] diameter] Hrd. simpl in Hrd.
  injection Hrd as _ <- <- <-.
  apply raises_bind_r; [apply quiet_spatial_high_pass | intros _ img' _].
  apply raises_bind_l. apply raises_lift_Err.
Qed.

(** C2 (defect of the code).  Called with [diameter=None], [select_rois]
    never completes: for every configuration, movie and behaviour of the
    collaborators it ends with an exception, and the segmentation model has
    not been called.  The message of line 231 announces that the model will
    estimate the diameter, and line 239 then evaluates [diameter[1]] on
    [None]. *)
Theorem select_rois_none_raises (fuel : nat) ops mov :
  exists tr e,
    select_rois E (S fuel) ops mov ONone = (tr, Raised e) /\ no_eval tr.
Proof.
  simpl. unfold select_rois_body.
  set (rd := roi_detect_body E _).
  destruct (raises_bind_l (select_rois_detect E rd ops mov ONone)
              (fun d =>
                 stats ← lift (masks_to_stats (det_masks d) (det_weights d));
                 _ ← emit (NoteDetectedROIs (Z.of_nat (length stats)));
                 mret (stats, update_ops ops (det_median_diam d)
                                (det_max_proj d) (det_img d)))
              (select_rois_detect_none_raises rd ops mov))
    as [Htr [e He]].
  match goal with
  | |- exists tr e, ?m = _ /\ _ => destruct m as [tr o] eqn:Em
  end.
  simpl in *. subst o. eauto.
Qed.

Lemma estimate_diameter_try_diverges sr ops_copy mov tr :
  estimate_diameter_try E sr ops_copy mov = (tr, Diverged) ->
  (sr ops_copy mov ONone).2 = Diverged.
Proof.
  unfold estimate_diameter_try.
  destruct (sr ops_copy mov ONone) as [tr0 [[stat ops']|e|]]; simpl;
    [|discriminate|reflexivity].
  destruct (0 <? Z.of_nat (length stat)); simpl; [|discriminate].
  destruct (mapM (region_diameter E mov) stat); simpl; discriminate.
Qed.

(** C3.  [estimate_diameter_from_activity] never ends with an exception:
    whenever the [select_rois] it calls comes back, it returns a value; an
    exception raised anywhere in the [try] block is reported and answered
    with [None], and so is an empty list of regions. *)
Theorem estimate_diameter_never_raises sr ops mov :
  (sr (<["anatomical_only" := ONum 0]> ops) mov ONone).2 <> Diverged ->
  exists tr v,
    estimate_diameter_body E sr ops mov = (tr, Done v) /\
    (forall tr0 e,
       estimate_diameter_try E sr (<["anatomical_only" := ONum 0]> ops) mov
       = (tr0, Raised e) ->
       tr = tr0 ++ [NoteEstimationFailed e] /\ v = ONone) /\
    (forall tr0 ops',
       sr (<["anatomical_only" := ONum 0]> ops) mov ONone
       = (tr0, Done ([], ops')) ->
       tr = tr0 ++ [NoteEstimationFailedNoROIs] /\ v = ONone).
Proof.
  intros Hsr. unfold estimate_diameter_body.
  destruct (estimate_diameter_try E sr (<["anatomical_only" := ONum 0]> ops)
              mov) as [tr0 [v|e|]] eqn:Etry; simpl.
  - exists tr0, v. split; [reflexivity|]. split; [discriminate|].
    intros tr1 ops' Hnone. unfold estimate_diameter_try in Etry.
    rewrite Hnone in Etry. simpl in Etry.
    injection Etry as <- <-. auto.
  - exists (tr0 ++ [NoteEstimationFailed e]), ONone.
    split; [reflexivity|]. split.
    + intros tr1 e1 [= <- <-]. auto.
    + intros tr1 ops' Hnone. unfold estimate_diameter_try in Etry.
      rewrite Hnone in Etry. simpl in Etry. discriminate.
  - exfalso. apply Hsr. by eapply estimate_diameter_try_diverges.
Qed.
End OrchestratorProps.

Lemma estimate_diameter_never_raises_witness :
  exists tr v,
    estimate_diameter_body reference_collaborators
      (select_rois reference_collaborators 1) tiny_ops tiny_movie
    = (tr, Done v).
Proof.
  destruct (estimate_diameter_never_raises reference_collaborators
              (select_rois reference_collaborators 1) tiny_ops tiny_movie)
    as (tr & v & Hrun & _).
  - vm_compute. discriminate.
  - eauto.
Defined.

(** ** The anisotropic path of [select_rois] *)

Ltac run_inv H :=
  repeat match type of H with
  | _ ≫= _ = (_, Done _) =>
      let tr1 := fresh "tr" in
      let a := fresh "a" in
      let tr2 := fresh "tr" in
      let Ha := fresh "Ha" in
      let Ht := fresh "Ht" in
      apply run_bind_Done in H as (tr1 & a & tr2 & Ha & H & Ht)
  end.

Lemma nearest_resize_shape {A} (m : array2 A) (w h : Z) (r : array2 A) :
  nearest_resize m w h = Ok r -> has_shape r h w.
Proof.
  unfold nearest_resize. destruct m as [|[|x0 row0] m]; try discriminate.
  destruct ((w <=? 0) || (h <=? 0)) eqn:E; [discriminate|].
  apply orb_false_iff in E as [Hw Hh]. intros [= <-]. split.
  - rewrite length_fmap, length_seqZ. lia.
  - apply Forall_fmap, Forall_forall. intros y _. simpl.
    rewrite length_fmap, length_seqZ. lia.
Qed.

Lemma qtrunc_double (n : Z) :
  qtrunc (inject_Z n * (20 / 10))%Q = 2 * n.
Proof.
  unfold qtrunc. simpl.
  change (Z.pos (1 * (1 * 10))) with 10.
  replace (n * (20 * 1)) with (2 * n * 10) by lia. apply Z.quot_mul. lia.
Qed.

Section Anisotropic.
Context (E : collaborators).

(** [cv2.resize(src, (w, h))] returns an array of [h] rows and [w]
    columns. *)
Hypothesis cv2_resize_shape :
  forall img w h r, cv2_resize E img w h = Ok r -> has_shape r h w.
Hypothesis cv2_resize_nearest_shape :
  forall m w h r, cv2_resize_nearest E m w h = Ok r -> has_shape r h w.

Lemma resolve_diameter_pair ops img Lyc Lxc tr img1 rescale diameter :
  resolve_diameter E ops img Lyc Lxc (OList [ONum 10; ONum 20])
  = (tr, Done (img1, rescale, diameter)) ->
  cv2_resize E img Lxc (2 * Lyc) = Ok img1 /\
  rescale = Some (20 / 10)%Q /\
  diameter = OList [ONum 10; ONum 20] /\
  tr = [NoteDiameterSet 20].
Proof.
  unfold resolve_diameter. intros H. simpl in H.
  run_inv H.
  destruct (dict_get ops "diameter" ≫= py_len) as [n|e]; simpl in Ha;
    [|discriminate].
  injection Ha as <- <-.
  destruct (1 <? n).
  - rewrite qtrunc_double in Ha0.
    destruct (cv2_resize E img Lxc (2 * Lyc)) as [img'|e] eqn:Ecv;
      simpl in Ha0; [|discriminate].
    injection Ha0 as <- <-. simpl in H. injection H as <- <- <- <-.
    subst. auto.
  - simpl in Ha0. injection Ha0 as <- <-. simpl in H. discriminate.
Qed.

(** C8.  When [select_rois] is called with the diameter pair [10, 20] and
    reaches line 244, the detection image was resized to twice as many
    rows and the same number of columns before [roi_detect] saw it
    (diameter 20), and the mask that [roi_detect] returned was resized back
    with nearest-neighbour interpolation: the final mask and the final
    image have the shape [(Lyc, Lxc)] of the frames of the movie. *)
Theorem select_rois_anisotropic_round_trip rd ops mov tr det :
  select_rois_detect E rd ops mov (OList [ONum 10; ONum 20])
  = (tr, Done det) ->
  has_shape (det_masks det) (mov_Lyc mov) (mov_Lxc mov) /\
  has_shape (det_img det) (mov_Lyc mov) (mov_Lxc mov) /\
  exists img0 img1 img2 mov' cp ft pm trd masks0 centers md mask_diams,
    cv2_resize E img0 (mov_Lxc mov) (2 * mov_Lyc mov) = Ok img1 /\
    has_shape img1 (2 * mov_Lyc mov) (mov_Lxc mov) /\
    (spatial_high_pass E ops img1 (OList [ONum 10; ONum 20])).2
    = Done img2 /\
    rd ops img2 mov' (ONum 20) cp ft pm
    = (trd, Done (masks0, centers, md, mask_diams)) /\
    cv2_resize_nearest E masks0 (mov_Lxc mov) (mov_Lyc mov)
    = Ok (det_masks det).
Proof.
  unfold select_rois_detect. intros H. run_inv H.
  destruct a2 as [img weights]. run_inv H.
  destruct a2 as [[img1 rescale] diameter].
  apply resolve_diameter_pair in Ha3 as (Hcv & -> & -> & _).
  run_inv H.
  simpl in Ha4. injection Ha4 as _ <-.
  destruct a7 as [[[masks centers] md] mask_diams].
  simpl in H.
  destruct (cv2_resize_nearest E masks (mov_Lxc mov) (mov_Lyc mov))
    as [masks'|e] eqn:Em; simpl in H; [|discriminate].
  destruct (cv2_resize E a2 (mov_Lxc mov) (mov_Lyc mov))
    as [img'|e] eqn:Ei; simpl in H; [|discriminate].
  injection H as _ <-. simpl.
  split; [by eapply cv2_resize_nearest_shape|].
  split; [by eapply cv2_resize_shape|].
  exists img, img1, a2, a0, a5, a4, a6, tr20, masks, centers, md, mask_diams.
  split; [exact Hcv|]. split; [by eapply cv2_resize_shape|].
  split; [by rewrite Ha3|]. split; [exact Ha8 | exact Em].
Qed.
End Anisotropic.

Lemma select_rois_anisotropic_round_trip_witness :
  exists tr det,
    select_rois_detect reference_collaborators
      (roi_detect reference_collaborators 1) tiny_ops tiny_movie
      (OList [ONum 10; ONum 20]) = (tr, Done det) /\
    has_shape (det_masks det) 2 3.
Proof.
  eexists. eexists.
  assert (Hrun : select_rois_detect reference_collaborators
            (roi_detect reference_collaborators 1) tiny_ops tiny_movie
            (OList [ONum 10; ONum 20])
          = ([NoteDiameterSet 20; CellposeEval (4, 3) (ONum 20);
              NoteMasksDetected 1 (Some 20%Q)],
             Done {| det_masks := [[1; 0; 0]; [0; 0; 0]];
                     det_img := [[1; 2; 3]; [4; 5; 6]]%Q;
                     det_weights := [[1; 2; 3]; [4; 5; 6]]%Q;
                     det_max_proj := [[1; 2; 3]; [4; 5; 6]]%Q;
                     det_median_diam := ONum 20 |})).
  { vm_compute. reflexivity. }
  split; [exact Hrun|].
  exact (proj1 (select_rois_anisotropic_round_trip reference_collaborators
                  (@nearest_resize_shape Q) (@nearest_resize_shape Z)
                  _ _ _ _ _ Hrun)).
Defined.

(** ** More on [refine_masks] *)

Lemma mapM_res_length {A B} (f : A -> res B) (l : list A) (k : list B) :
  mapM f l = Ok k -> length k = length l.
Proof.
  intros H. apply mapM_res_Ok in H. symmetry. by eapply Forall2_length.
Qed.

Lemma replace_nonpositive_length (lam0 lam' : list Q) :
  replace_nonpositive lam0 = Ok lam' -> length lam' = length lam0.
Proof.
  unfold replace_nonpositive. intros H. res_inv H. subst.
  apply length_fmap.
Qed.

Lemma broadcast2_fst_snd (pix : list (Z * Z)) :
  broadcast2 pix.*1 pix.*2 = Ok pix.
Proof.
  unfold broadcast2. rewrite decide_True by (by rewrite !length_fmap).
  f_equal. apply zip_fst_snd.
Qed.

Section RefineMore.
Variable square_mask : array2 Q -> Z -> Z -> Z -> res (array2 Q).
Variable mask_ious : array2 Z -> array2 Z -> res (list Q * list Z).
Variable patch_detect : list (array2 Q) -> Q -> res (list (array2 Z)).

Lemma refine_region_frame Lyc Lxc ly pm st seed st' :
  refine_region square_mask mask_ious Lyc Lxc ly pm st seed = Ok st' ->
  forall k : string,
    k <> "ypix" -> k <> "xpix" -> k <> "lam" -> k <> "anatomical" ->
    st' !! k = st !! k.
Proof.
  destruct seed as [yi xi]. unfold refine_region, refine_decide.
  intros H k Hy Hx Hl Ha. res_inv H. destruct a0.
  - unfold adopt_footprint in H. res_inv H. subst st'.
    by rewrite !lookup_insert_ne.
  - injection H as <-. by rewrite lookup_insert_ne.
Qed.

Lemma refine_loop_frame Lyc Lxc ly pms stats seeds out :
  refine_loop square_mask mask_ious Lyc Lxc ly pms stats seeds = Ok out ->
  length out = length stats /\
  (forall (i : nat) st st', stats !! i = Some st -> out !! i = Some st' ->
     forall k : string,
       k <> "ypix" -> k <> "xpix" -> k <> "lam" -> k <> "anatomical" ->
       st' !! k = st !! k) /\
  (forall i : nat, (length pms <= i \/ length seeds <= i)%nat ->
     out !! i = stats !! i).
Proof.
  revert stats seeds out.
  induction pms as [|pm pms IH]; intros stats seeds out H.
  { simpl in H. injection H as <-. split; [reflexivity|]. split; [|auto].
    intros i st st' H1 H2. congruence. }
  destruct stats as [|st0 stats].
  { simpl in H. injection H as <-. split; [reflexivity|]. split; [|auto].
    intros i st st' H1. discriminate. }
  destruct seeds as [|seed seeds].
  { simpl in H. injection H as <-. split; [reflexivity|]. split; [|auto].
    intros i st st' H1 H2. congruence. }
  cbn [refine_loop] in H. res_inv H. subst out.
  destruct (IH _ _ _ Ha0) as (Hlen & Hkeys & Hrest).
  split; [simpl; lia|]. split.
  - intros [|i] st st' H1 H2; simpl in H1, H2.
    + injection H1 as <-. injection H2 as <-.
      by eapply refine_region_frame.
    + by eapply Hkeys.
  - intros [|i] Hi; simpl in Hi; [lia|]. simpl. apply Hrest. lia.
Qed.

(** [refine_masks] returns as many records as it was given; a record with
    no patch mask or no seed of its own is returned as it was; and in every
    record the keys other than ["ypix"], ["xpix"], ["lam"] and
    ["anatomical"] (["med"] and ["footprint"] among them) keep their
    values, also when the footprint is replaced. *)
Theorem refine_masks_frame stats patches seeds diam Lyc Lxc out :
  refine_masks square_mask mask_ious patch_detect stats patches seeds diam
    Lyc Lxc = Ok out ->
  length out = length stats /\
  (forall (i : nat) st st', stats !! i = Some st -> out !! i = Some st' ->
     forall k : string,
       k <> "ypix" -> k <> "xpix" -> k <> "lam" -> k <> "anatomical" ->
       st' !! k = st !! k) /\
  (forall patch_masks (i : nat),
     patch_detect patches diam = Ok patch_masks ->
     (length patch_masks <= i \/ length seeds <= i)%nat ->
     out !! i = stats !! i).
Proof.
  unfold refine_masks. intros H. res_inv H.
  destruct (refine_loop_frame _ _ _ _ _ _ _ H) as (H1 & H2 & H3).
  split; [exact H1|]. split; [exact H2|].
  intros pms i Hpd Hi. rewrite Ha in Hpd. injection Hpd as <-. by apply H3.
Qed.

(** The coordinates of an adopted footprint are read off the patch mask
    consistently: a pixel [(Y, X)] of the new footprint is the patch pixel
    [(Y - (yi - ly), X - (xi - ly))], which carries the best-matching id;
    and [lam] holds one weight per pixel. *)
Theorem refine_masks_pixels_from_patch stats patches seeds diam Lyc Lxc out
    i ly pm st yi xi fm ious st' :
  refine_masks square_mask mask_ious patch_detect stats patches seeds diam
    Lyc Lxc = Ok out ->
  loop_entry patch_detect stats patches seeds diam i ly pm st (yi, xi) ->
  region_ious square_mask mask_ious Lyc Lxc ly pm st yi xi = Ok (fm, ious) ->
  out !! i = Some st' ->
  st' !! "anatomical" = Some (PBool true) ->
  exists imax (pix : list (Z * Z)) lam,
    np_argmax ious = Ok imax /\
    st' !! "ypix" = Some (PInts pix.*1) /\
    st' !! "xpix" = Some (PInts pix.*2) /\
    st' !! "lam" = Some (PFloats lam) /\
    length lam = length pix /\
    forall Y X, (Y, X) ∈ pix ->
      0 <= Y - (yi - ly) /\ 0 <= X - (xi - ly) /\
      exists row,
        pm !! Z.to_nat (Y - (yi - ly)) = Some row /\
        row !! Z.to_nat (X - (xi - ly)) = Some (imax + 1).
Proof.
  intros Hrun Hentry Hious Hout Hflag.
  destruct (refine_masks_entry _ _ _ _ _ _ _ _ _ _ _ _ _ _ _ Hrun Hentry)
    as (st'' & Hout' & Hreg).
  rewrite Hout in Hout'. injection Hout' as <-.
  pose proof (refine_region_decide _ _ _ _ _ _ _ _ _ _ _ _ Hious Hreg)
    as Hdec.
  destruct (refine_decide_adopted _ _ _ _ _ _ _ _ _ _ Hdec Hflag)
    as [_ Hadopt].
  destruct (adopt_footprint_fields _ _ _ _ _ _ _ _ _ _ Hadopt)
    as (imax & lam0 & Hmax & Hlam & Hyp & Hxp & Hl & _).
  simpl in Hlam, Hyp, Hxp.
  set (crop := nonzero _) in Hlam, Hyp, Hxp.
  exists imax,
    ((fun p => (p.1 + Z.max 0 (yi - ly), p.2 + Z.max 0 (xi - ly))) <$> crop),
    lam0.
  split; [exact Hmax|].
  split.
  { rewrite Hyp. do 2 f_equal. rewrite <- !list_fmap_compose.
    by apply list_fmap_ext. }
  split.
  { rewrite Hxp. do 2 f_equal. rewrite <- !list_fmap_compose.
    by apply list_fmap_ext. }
  split; [exact Hl|]. split.
  { res_inv Hlam. apply replace_nonpositive_length in Hlam.
    unfold fancy_get in Ha. rewrite broadcast2_fst_snd in Ha. simpl in Ha.
    apply mapM_res_length in Ha. rewrite length_fmap. congruence. }
  intros Y X Hin.
  apply list_elem_of_fmap in Hin as ([y x] & [= -> ->] & Hin). simpl.
  apply nonzero_eq_scalar in Hin as (Hy & Hx & row & Hrow & Hk).
  destruct (slice2_lookup _ _ _ _ _ _ _ _ _ Hrow Hk)
    as (row' & Hrow' & _ & Hk' & _).
  pose proof (lookup_lt_Some _ _ _ Hrow') as Hylt.
  pose proof (lookup_lt_Some _ _ _ Hk') as Hxlt.
  rewrite slice_bound_nonneg in Hrow', Hk', Hylt, Hxlt by lia.
  split; [lia|]. split; [lia|]. exists row'.
  replace (Z.to_nat (y + Z.max 0 (yi - ly) - (yi - ly)))
    with (Z.to_nat (Z.min (Z.max 0 (ly - yi)) (Z.of_nat (length pm)))
          + Z.to_nat y)%nat by lia.
  split; [exact Hrow'|].
  replace (Z.to_nat (x + Z.max 0 (xi - ly) - (xi - ly)))
    with (Z.to_nat (Z.min (Z.max 0 (ly - xi)) (Z.of_nat (length row')))
          + Z.to_nat x)%nat by lia.
  exact Hk'.
Qed.
End RefineMore.

Lemma refine_masks_frame_witness :
  length [<["anatomical" := PBool true]> edge_stat] = length [edge_stat].
Proof.
  exact (proj1 (refine_masks_frame square_window label_ious
                  (constant_detect block_patch_mask) _ _ _ _ _ _ _
                  refine_masks_edge_run)).
Defined.

Lemma refine_masks_pixels_from_patch_witness :
  exists imax (pix : list (Z * Z)) lam,
    np_argmax [8 # 9]%Q = Ok imax /\
    (<["anatomical" := PBool true]> edge_stat) !! "ypix"
    = Some (PInts pix.*1) /\
    (<["anatomical" := PBool true]> edge_stat) !! "lam" = Some (PFloats lam) /\
    length lam = length pix.
Proof.
  edestruct (refine_masks_pixels_from_patch square_window label_ious
               (constant_detect block_patch_mask)
               [edge_stat] [blank_patch] [(1, 5)] 12%Q 10 10
               [<["anatomical" := PBool true]> edge_stat] 0%nat 3
               block_patch_mask edge_stat 1 5)
    as (imax & pix & lam & H1 & H2 & _ & H4 & H5 & _).
  - exact refine_masks_edge_run.
  - exists [block_patch_mask], blank_patch. repeat split; reflexivity.
  - vm_compute. reflexivity.
  - reflexivity.
  - vm_compute. reflexivity.
  - exists imax, pix, lam. auto.
Defined.

Lemma replace_nonpositive_keeps_sign_witness :
  Forall2 (fun w w' => ((0 < w)%Q -> w' = w) /\ ((w <= 0)%Q -> (w' <= 0)%Q))
    [3; 0; -2; 5]%Q [3; -2; -2; 5]%Q.
Proof.
  apply (replace_nonpositive_keeps_sign [3; 0; -2; 5]%Q [3; -2; -2; 5]%Q).
  vm_compute. reflexivity.
Defined.

(** ** The best-matching id *)

Lemma argmax_from_spec (l : list Q) (best : Q) (ibest i : Z) (pre : list Q) :
  Z.of_nat (length pre) = i -> 0 <= ibest < i ->
  pre !! Z.to_nat ibest = Some best ->
  Forall (fun w => (w <= best)%Q) pre ->
  (forall (j : nat) w, Z.of_nat j < ibest -> pre !! j = Some w ->
                       (w < best)%Q) ->
  let r := argmax_from best ibest i l in
  0 <= r < i + Z.of_nat (length l) /\
  exists v, (pre ++ l) !! Z.to_nat r = Some v /\
            Forall (fun w => (w <= v)%Q) (pre ++ l) /\
            forall (j : nat) w, Z.of_nat j < r -> (pre ++ l) !! j = Some w ->
                                (w < v)%Q.
Proof.
  revert best ibest i pre.
  induction l as [|x l IH]; intros best ibest i pre Hlen Hib Hbest Hall Hfirst;
    simpl.
  - rewrite app_nil_r. split; [lia|]. eauto.
  - assert (Hlen' : Z.of_nat (length (pre ++ [x])) = i + 1).
    { rewrite length_app. simpl. lia. }
    replace (pre ++ x :: l) with ((pre ++ [x]) ++ l)
      by (by rewrite <- app_assoc).
    replace (i + Z.of_nat (S (length l))) with (i + 1 + Z.of_nat (length l))
      by lia.
    destruct (Qle_bool x best) eqn:E.
    + apply Qle_bool_iff in E. apply IH; try assumption; try lia.
      * rewrite lookup_app_l by lia. exact Hbest.
      * apply Forall_app. split; [exact Hall|]. by constructor.
      * intros j w Hj Hw. rewrite lookup_app_l in Hw by lia. eauto.
    + apply Qle_bool_false in E. apply IH; try assumption; try lia.
      * rewrite lookup_app_r by lia.
        replace (Z.to_nat i - length pre)%nat with 0%nat by lia. reflexivity.
      * apply Forall_app. split.
        -- eapply Forall_impl; [exact Hall|]. intros w Hw. simpl in Hw.
           eapply Qle_trans; [exact Hw | apply Qlt_le_weak, E].
        -- constructor; [apply Qle_refl | constructor].
      * intros j w Hj Hw. rewrite lookup_app_l in Hw by lia.
        eapply Qle_lt_trans; [|exact E].
        rewrite Forall_forall in Hall. apply Hall.
        by eapply list_elem_of_lookup_2.
Qed.

(** The id adopted on line 94 is the lowest id with the largest IOU:
    [np.argmax] returns a position whose IOU is at least every IOU and
    strictly above every IOU before it. *)
Theorem np_argmax_first_maximum (ious : list Q) (imax : Z) :
  np_argmax ious = Ok imax ->
  0 <= imax < Z.of_nat (length ious) /\
  exists v,
    ious !! Z.to_nat imax = Some v /\
    Forall (fun w => (w <= v)%Q) ious /\
    forall (j : nat) w, Z.of_nat j < imax -> ious !! j = Some w -> (w < v)%Q.
Proof.
  destruct ious as [|x l]; [discriminate|]. intros [= <-].
  destruct (argmax_from_spec l x 0 1 [x]) as [H1 H2]; simpl; try lia;
    try reflexivity.
  - constructor; [apply Qle_refl | constructor].
  - simpl in *. split; [lia | exact H2].
Qed.

Lemma np_argmax_first_maximum_witness :
  exists v,
    [1 # 2; 3 # 4; 3 # 4; 1 # 4]%Q !! Z.to_nat 1 = Some v /\
    Forall (fun w => (w <= v)%Q) [1 # 2; 3 # 4; 3 # 4; 1 # 4]%Q.
Proof.
  destruct (np_argmax_first_maximum [1 # 2; 3 # 4; 3 # 4; 1 # 4]%Q 1 eq_refl)
    as (_ & v & H1 & H2 & _).
  eauto.
Defined.
